(** * HerLang runtime: a model of [src/runtime/gentle_concurrency.hpp]

    The header defines five primitives: [GentleOwnership<T>], [GentleTask],
    [GentleScheduler], [GentleChannel<T>] and [GentleMemoryPool].  Each is
    embedded below as a record for the object's fields and one function per
    member function.  Every member function that touches shared fields does
    so inside one [std::mutex] critical section (or through a sequentially
    consistent [std::atomic]), so a critical section is one atomic transition
    of the model and concurrent executions are interleavings of those
    transitions.  [size_t] values are [Z] with the wrap-around modulo [2^64]
    written out.  Of the console output the model keeps the lines of the
    task and scheduler code that tell how a task ended. *)

From Stdlib Require Import ZArith Lia.
From stdpp Require Import base tactics option list strings relations.

Local Open Scope Z_scope.

(** ** [size_t] arithmetic *)

Definition SIZE_MAX : Z := 2 ^ 64 - 1.

Definition wrap (z : Z) : Z := z mod 2 ^ 64.

(** [std::atomic<size_t>::fetch_add(1)] and [fetch_sub(1)]: the stored value
    after the call. *)
Definition fetch_add (a d : Z) : Z := wrap (a + d).
Definition fetch_sub (a d : Z) : Z := wrap (a - d).

Arguments wrap : simpl never.
Arguments fetch_add : simpl never.
Arguments fetch_sub : simpl never.

(** ** GentleOwnership<T> *)

Module Ownership.

(** The [std::runtime_error] thrown by the three accessors when [data_] is
  null; the spec calls it [UseAfterTransfer]. *)
Inductive cell_error : Set := UseAfterTransfer.

Section Cell.
Context {T R : Type}.

(** [data_] is a [std::unique_ptr<T>]: [None] is the null pointer. *)
Record GentleOwnership : Type := mkCell {
  data_ : option T;
  owner_name_ : string
}.

(** [GentleOwnership(T&& value, const std::string& owner)] *)
Definition construct (value : T) (owner : string) : GentleOwnership :=
  {| data_ := Some value; owner_name_ := owner |}.

(** A callback receives [*data_], a [T&] in both borrows (the [const] of
    [borrow_gently] does not reach through the [unique_ptr]), so it is a
    function from the stored value to its result and the value it leaves
    behind. *)
Definition callback : Type := T -> R * T.

Definition borrow_gently (func : callback) (c : GentleOwnership)
  : (cell_error + R) * GentleOwnership :=
  match data_ c with
  | None => (inl UseAfterTransfer, c)
  | Some v =>
      let '(r, v') := func v in
      (inr r, {| data_ := Some v'; owner_name_ := owner_name_ c |})
  end.

Definition borrow_mutably (func : callback) (c : GentleOwnership)
  : (cell_error + R) * GentleOwnership :=
  match data_ c with
  | None => (inl UseAfterTransfer, c)
  | Some v =>
      let '(r, v') := func v in
      (inr r, {| data_ := Some v'; owner_name_ := owner_name_ c |})
  end.

(** [return std::move(data_)] leaves [data_] null. *)
Definition transfer_with_care (new_owner : string) (c : GentleOwnership)
  : (cell_error + T) * GentleOwnership :=
  match data_ c with
  | None => (inl UseAfterTransfer, c)
  | Some v => (inr v, {| data_ := None; owner_name_ := new_owner |})
  end.

Definition is_available (c : GentleOwnership) : bool :=
  bool_decide (is_Some (data_ c)).

Definition current_owner (c : GentleOwnership) : string := owner_name_ c.

(** The public interface as a datatype, to speak about call sequences. *)
Inductive cell_op : Type :=
| BorrowShared (func : callback)
| BorrowExclusive (func : callback)
| Transfer (new_owner : string)
| IsAvailable
| CurrentOwner.

Inductive cell_result : Type :=
| Raised (e : cell_error)
| Borrowed (r : R)
| Moved (v : T)
| Available (b : bool)
| Owner (s : string).

Definition of_borrow (x : cell_error + R) : cell_result :=
  match x with inl e => Raised e | inr r => Borrowed r end.

Definition of_transfer (x : cell_error + T) : cell_result :=
  match x with inl e => Raised e | inr v => Moved v end.

Definition call (op : cell_op) (c : GentleOwnership)
  : cell_result * GentleOwnership :=
  match op with
  | BorrowShared f => let '(x, c') := borrow_gently f c in (of_borrow x, c')
  | BorrowExclusive f => let '(x, c') := borrow_mutably f c in (of_borrow x, c')
  | Transfer o => let '(x, c') := transfer_with_care o c in (of_transfer x, c')
  | IsAvailable => (Available (is_available c), c)
  | CurrentOwner => (Owner (current_owner c), c)
  end.

Fixpoint calls (ops : list cell_op) (c : GentleOwnership)
  : list cell_result * GentleOwnership :=
  match ops with
  | [] => ([], c)
  | op :: rest =>
      let '(r, c1) := call op c in
      let '(rs, c2) := calls rest c1 in
      (r :: rs, c2)
  end.

(** Borrows and transfers, as opposed to the two queries. *)
Definition accesses (op : cell_op) : bool :=
  match op with
  | BorrowShared _ | BorrowExclusive _ | Transfer _ => true
  | IsAvailable | CurrentOwner => false
  end.

Definition refused (op : cell_op) (r : cell_result) : Prop :=
  accesses op = true -> r = Raised UseAfterTransfer.

(** A result that hands the value out. *)
Definition moved (r : cell_result) : bool :=
  match r with Moved _ => true | _ => false end.

(** The owner named by the first [Transfer] of a call sequence. *)
Fixpoint first_transfer (ops : list cell_op) : option string :=
  match ops with
  | [] => None
  | Transfer new_owner :: _ => Some new_owner
  | _ :: rest => first_transfer rest
  end.

(** The value left by the callbacks of the borrows of a call sequence, run
    one after the other from [v]. *)
Fixpoint borrowed_through (ops : list cell_op) (v : T) : T :=
  match ops with
  | [] => v
  | BorrowShared func :: rest | BorrowExclusive func :: rest =>
      borrowed_through rest (func v).2
  | _ :: rest => borrowed_through rest v
  end.

End Cell.

Arguments GentleOwnership : clear implicits.
Arguments cell_op : clear implicits.
Arguments cell_result : clear implicits.
Arguments callback : clear implicits.

(** The scenario of the spec: a cell of "A" built on 0, and the callback
    [[](int& x) { ++x; }] given to [borrow_mutably]. *)
Definition increment : callback Z unit := fun x => (tt, x + 1).

Definition cell_A : GentleOwnership Z := construct 0 "A".

Definition cell_A_incremented : GentleOwnership Z :=
  (borrow_mutably increment cell_A).2.

(** A read-only callback: [[](const int& x) { return x; }]. *)
Definition peek : callback Z Z := fun x => (x, x).

End Ownership.

(** ** GentleTask *)

Module Task.

(** What a coroutine body can raise: an object derived from
    [std::exception], carrying its [what()], or any other thrown value. *)
Inductive exn : Type :=
| StdException (what : string)
| OtherException.

(** One run of the body from a resume point: it reaches the next
    [co_await] ([GentleYield::await_ready] is always false), falls off the
    end ([return_void]), or raises. *)
Inductive outcome : Type :=
| Suspend (next : nat)
| Return
| Throw (e : exn).

(** What [handle_] points at.  A body is a state machine over resume
    points, and [Live body pc] is its frame, suspended at [pc].
    [final_suspend] returns [std::suspend_never]: when the body ends, by
    return or by an exception, the coroutine does not stop at a final
    suspend point but releases its frame.  [handle_] is not reset, so from
    then on it is [Dangling]: it points at released memory, and nothing of
    the body survives (the promise has no data members). *)
Inductive frame : Type :=
| Live (body : nat -> outcome) (pc : nat)
| Dangling.

(** Lines written to [std::cout] by the task and scheduler code. *)
Inductive log_line : Type :=
| CoroutineTrouble                       (* promise_type::unhandled_exception *)
| TaskTrouble (name what : string)       (* the catch of resume_gently *)
| TaskCompleted (name : string)          (* worker_loop, task done *)
| AllCompleted (total : Z).              (* await_all_with_patience, exit *)

(** [handle_] is [None] for the null handle of a moved-from task. *)
Record GentleTask : Type := mkTask {
  handle_ : option frame;
  task_name_ : string;
  created_at_ : Z
}.

(** [std::coroutine_handle::done()]: true only for a coroutine suspended
    at its final suspend point, where a coroutine with this promise never
    stops.  On a [Dangling] handle the call has no defined result; with the
    frame layout the compilers use it reads the resume pointer that the
    ended coroutine left in its released frame, which is not null, and
    answers false. *)
Definition done (f : frame) : bool :=
  match f with Live _ _ => false | Dangling => false end.

Definition is_done (t : GentleTask) : bool :=
  match handle_ t with
  | None => true
  | Some f => done f
  end.

(** The task with its coroutine in state [f]; name and creation time stay. *)
Definition with_frame (f : frame) (t : GentleTask) : GentleTask :=
  {| handle_ := Some f;
     task_name_ := task_name_ t;
     created_at_ := created_at_ t |}.

(** [handle_.resume()] with this [promise_type]: an exception leaving the
    body is passed to [unhandled_exception], which prints and returns; the
    body has then ended as it has after a return, the frame is released and
    the handle dangles.  The third component is what leaves [resume()] as
    an exception.  Resuming a [Dangling] handle runs released memory and
    has no defined behaviour: the last case only keeps the function total,
    and leaves the handle as it is. *)
Definition resume (f : frame) : frame * list log_line * option exn :=
  match f with
  | Live body pc =>
      match body pc with
      | Suspend next => (Live body next, [], None)
      | Return => (Dangling, [], None)
      | Throw _ => (Dangling, [CoroutineTrouble], None)
      end
  | Dangling => (Dangling, [], None)
  end.

(** [resume_gently]: the new task, the lines printed, and the exception that
    leaves the call, if any ([catch (const std::exception&)] lets everything
    else through). *)
Definition resume_gently (t : GentleTask)
  : GentleTask * list log_line * option exn :=
  match handle_ t with
  | Some f =>
      if done f then (t, [], None)
      else
        let '(f', out, thrown) := resume f in
        let t' := with_frame f' t in
        match thrown with
        | None => (t', out, None)
        | Some (StdException what) =>
            (t', out ++ [TaskTrouble (task_name_ t) what], None)
        | Some OtherException => (t', out, Some OtherException)
        end
  | None => (t, [], None)
  end.

(** A task object without a coroutine: [handle_] is null, as in an object
    that was moved from or built on a default [coroutine_handle]. *)
Definition handleless_task : GentleTask :=
  {| handle_ := None;
     task_name_ := "job";
     created_at_ := 0 |}.

(** Two tasks suspended at their one [co_await]: resumed, the first falls
    off the end of its body and the second throws. *)
Definition returning_task : GentleTask :=
  {| handle_ := Some (Live (fun _ => Return) 0);
     task_name_ := "job";
     created_at_ := 0 |}.

Definition failing_task : GentleTask :=
  {| handle_ := Some (Live (fun _ => Throw (StdException "boom")) 0);
     task_name_ := "job";
     created_at_ := 0 |}.

(** A task that suspends once more before it returns. *)
Definition yielding_task : GentleTask :=
  {| handle_ := Some (Live (fun pc => match pc with O => Suspend 1 | _ => Return end) 0);
     task_name_ := "slow";
     created_at_ := 0 |}.


(** The coroutine a task object is responsible for: its destructor and its
    move assignment call [handle_.destroy()] on it when [handle_] is set. *)
Definition held (t : GentleTask) : list frame :=
  match handle_ t with
  | Some f => [f]
  | None => []
  end.

Section Moves.

(** What a [std::string] holds after [std::move] took its content: some
    valid string, which one is not specified. *)
Variable moved_from : string -> string.

(** [other] after [std::exchange(other.handle_, {})] and
    [std::move(other.task_name_)]. *)
Definition emptied (other : GentleTask) : GentleTask :=
  {| handle_ := None;
     task_name_ := moved_from (task_name_ other);
     created_at_ := created_at_ other |}.

(** [GentleTask(GentleTask&& other)]: the new object and [other]
    afterwards. *)
Definition move_construct (other : GentleTask) : GentleTask * GentleTask :=
  ({| handle_ := handle_ other;
      task_name_ := task_name_ other;
      created_at_ := created_at_ other |},
   emptied other).

(** [operator=(GentleTask&& other)] on the objects of a program, which are
    the slots of [objs]; [this] and [other] are the slots of the two
    operands, so [this != &other] is inequality of slots.  Returns the
    objects afterwards and the coroutines given to [destroy()]. *)
Definition move_assign (this other : nat) (objs : list GentleTask)
  : list GentleTask * list frame :=
  if bool_decide (this = other) then (objs, [])
  else
    match objs !! this, objs !! other with
    | Some a, Some b =>
        (<[other := emptied b]>
           (<[this := {| handle_ := handle_ b;
                         task_name_ := task_name_ b;
                         created_at_ := created_at_ b |}]> objs),
         held a)
    | _, _ => (objs, [])
    end.

End Moves.

(** The coroutines all objects of a program are responsible for. *)
Definition held_by (objs : list GentleTask) : list frame :=
  concat (held <$> objs).

End Task.

(** ** GentleScheduler *)

Module Scheduler.
Import Task.

(** Where a worker thread stands in [worker_loop].  The loop body has four
    points at which other threads can run in between: after the task was
    popped under [tasks_mutex_], after [resume_gently], after
    [active_tasks_.fetch_sub(1)], and back at the [cv_.wait]. *)
Inductive worker : Type :=
| Waiting
| Holding (task : GentleTask)
| Resumed (task : GentleTask)
| Counting (task : GentleTask)
| Crashed (e : exn)
| Exited.

(** [tasks_] is the vector, last element at the back.  [worker_threads_]
    holds the position of each thread; [cout] is the console. *)
Record GentleScheduler : Type := mkScheduler {
  tasks_ : list GentleTask;
  should_stop_ : bool;
  worker_threads_ : list worker;
  active_tasks_ : Z;
  total_tasks_created_ : Z;
  total_tasks_completed_ : Z;
  cout : list log_line
}.

Definition construct (num_threads : nat) : GentleScheduler :=
  {| tasks_ := [];
     should_stop_ := false;
     worker_threads_ := replicate num_threads Waiting;
     active_tasks_ := 0;
     total_tasks_created_ := 0;
     total_tasks_completed_ := 0;
     cout := [] |}.

Definition set_worker (i : nat) (w : worker) (s : GentleScheduler)
  : GentleScheduler :=
  {| tasks_ := tasks_ s;
     should_stop_ := should_stop_ s;
     worker_threads_ := <[i := w]> (worker_threads_ s);
     active_tasks_ := active_tasks_ s;
     total_tasks_created_ := total_tasks_created_ s;
     total_tasks_completed_ := total_tasks_completed_ s;
     cout := cout s |}.

Definition set_tasks (ts : list GentleTask) (s : GentleScheduler)
  : GentleScheduler :=
  {| tasks_ := ts;
     should_stop_ := should_stop_ s;
     worker_threads_ := worker_threads_ s;
     active_tasks_ := active_tasks_ s;
     total_tasks_created_ := total_tasks_created_ s;
     total_tasks_completed_ := total_tasks_completed_ s;
     cout := cout s |}.

Definition print (out : list log_line) (s : GentleScheduler)
  : GentleScheduler :=
  {| tasks_ := tasks_ s;
     should_stop_ := should_stop_ s;
     worker_threads_ := worker_threads_ s;
     active_tasks_ := active_tasks_ s;
     total_tasks_created_ := total_tasks_created_ s;
     total_tasks_completed_ := total_tasks_completed_ s;
     cout := cout s ++ out |}.

(** The critical section of [spawn_gently]: the push and both increments
    happen with [tasks_mutex_] held, so no worker takes the new task before
    the last of them, and they are one move of the model.  The two counters
    are atomics of their own: a thread that loads them without the mutex can
    see the first incremented and the second not yet.  The line
    [spawn_gently] prints comes after the unlock and is not kept. *)
Definition spawn_gently (task : GentleTask) (s : GentleScheduler)
  : GentleScheduler :=
  {| tasks_ := tasks_ s ++ [task];
     should_stop_ := should_stop_ s;
     worker_threads_ := worker_threads_ s;
     active_tasks_ := fetch_add (active_tasks_ s) 1;
     total_tasks_created_ := fetch_add (total_tasks_created_ s) 1;
     total_tasks_completed_ := total_tasks_completed_ s;
     cout := cout s |}.

(** [active_tasks_.fetch_sub(1)] *)
Definition task_no_longer_active (s : GentleScheduler) : GentleScheduler :=
  {| tasks_ := tasks_ s;
     should_stop_ := should_stop_ s;
     worker_threads_ := worker_threads_ s;
     active_tasks_ := fetch_sub (active_tasks_ s) 1;
     total_tasks_created_ := total_tasks_created_ s;
     total_tasks_completed_ := total_tasks_completed_ s;
     cout := cout s |}.

(** [total_tasks_completed_.fetch_add(1)] *)
Definition task_counted (s : GentleScheduler) : GentleScheduler :=
  {| tasks_ := tasks_ s;
     should_stop_ := should_stop_ s;
     worker_threads_ := worker_threads_ s;
     active_tasks_ := active_tasks_ s;
     total_tasks_created_ := total_tasks_created_ s;
     total_tasks_completed_ := fetch_add (total_tasks_completed_ s) 1;
     cout := cout s |}.

(** [tasks_.back()] together with the vector after [tasks_.pop_back()]. *)
Definition pop_back {A : Type} (l : list A) : option (A * list A) :=
  match last l with
  | Some x => Some (x, removelast l)
  | None => None
  end.

(** One move of worker [i] in [worker_loop]; [None] when the thread cannot
    move (it sleeps in [cv_.wait], or it has left the loop).  The first
    case takes the wait, the test of [should_stop_] and the pop as one move.
    They all run with [tasks_mutex_] held, so this is exact for [tasks_];
    [should_stop_] is stored without the mutex, so a store that falls
    between the test and the pop, or between the predicate of the wait and
    the sleep, is not told apart here: the properties below use this case
    with [should_stop_] clear throughout. *)
Definition worker_step (i : nat) (s : GentleScheduler)
  : option GentleScheduler :=
  match worker_threads_ s !! i with
  | Some Waiting =>
      if should_stop_ s then Some (set_worker i Exited s)
      else
        match pop_back (tasks_ s) with
        | Some (task, rest) => Some (set_worker i (Holding task) (set_tasks rest s))
        | None => None
        end
  | Some (Holding task) =>
      let '(task', out, thrown) := resume_gently task in
      match thrown with
      | None => Some (set_worker i (Resumed task') (print out s))
      | Some e => Some (set_worker i (Crashed e) (print out s))
      end
  | Some (Resumed task) =>
      if is_done task
      then Some (set_worker i (Counting task) (task_no_longer_active s))
      else Some (set_worker i Waiting (set_tasks (tasks_ s ++ [task]) s))
  | Some (Counting task) =>
      Some (set_worker i Waiting
              (print [TaskCompleted (task_name_ task)] (task_counted s)))
  | Some (Crashed _) | Some Exited | None => None
  end.

(** The body of the [while] loop of worker [i], run with no other thread in
    between: [worker_step] until the thread is back at the wait. *)
Definition worker_iteration (i : nat) (s : GentleScheduler)
  : option GentleScheduler :=
  s1 ← worker_step i s;
  s2 ← worker_step i s1;
  s3 ← worker_step i s2;
  match worker_threads_ s3 !! i with
  | Some (Counting _) => worker_step i s3
  | _ => Some s3
  end.

(** [await_all_with_patience] at one evaluation of its loop condition:
    [None] while [active_tasks_.load() > 0] (sleep, then poll again),
    otherwise the line it prints before returning, with
    [total_tasks_completed_.load()] taken right after the last load of
    [active_tasks_], before any other thread moves. *)
Definition await_all_with_patience (s : GentleScheduler)
  : option log_line :=
  if 0 <? active_tasks_ s then None
  else Some (AllCompleted (total_tasks_completed_ s)).

(** The workers that stand between the two counter updates of a finished
    task. *)
Definition is_counting (w : worker) : bool :=
  match w with Counting _ => true | _ => false end.

Definition counting (ws : list worker) : Z :=
  Z.of_nat (length (List.filter is_counting ws)).

(** The relation between the three counters that every move keeps, in
    [size_t] arithmetic: each created task is active, counted as completed,
    or in the hands of a worker that has decremented [active_tasks_] and not
    yet incremented [total_tasks_completed_]. *)
Definition counters_agree (s : GentleScheduler) : Prop :=
  0 <= active_tasks_ s <= SIZE_MAX /\
  0 <= total_tasks_created_ s <= SIZE_MAX /\
  0 <= total_tasks_completed_ s <= SIZE_MAX /\
  exists k : Z,
    total_tasks_created_ s - total_tasks_completed_ s - active_tasks_ s
      - counting (worker_threads_ s) = 2 ^ 64 * k.

(** Interleavings of the threads around one scheduler while it is in use:
    a thread runs the critical section of [spawn_gently], or a worker makes
    its next move.  [shutdown_gracefully] is not among the events, so
    [should_stop_] stays clear along every run from [construct]. *)
Inductive event : Type :=
| Spawn (task : GentleTask)
| Work (i : nat).

Definition fire (e : event) (s : GentleScheduler) : option GentleScheduler :=
  match e with
  | Spawn task => Some (spawn_gently task s)
  | Work i => worker_step i s
  end.

Fixpoint run (es : list event) (s : GentleScheduler)
  : option GentleScheduler :=
  match es with
  | [] => Some s
  | e :: rest => s' ← fire e s; run rest s'
  end.


End Scheduler.

(** ** GentleChannel<T> *)

Module Channel.

Section Chan.
Context {T : Type}.

(** [queue_] is the [std::queue]: front at the head of the list, [emplace]
    appends at the tail. *)
Record GentleChannel : Type := mkChannel {
  queue_ : list T;
  closed_ : bool;
  max_capacity_ : Z
}.

(** [explicit GentleChannel(size_t capacity = 100)] *)
Definition construct (capacity : Z) : GentleChannel :=
  {| queue_ := []; closed_ := false; max_capacity_ := capacity |}.

Definition construct_default : GentleChannel := construct 100.

Definition size (c : GentleChannel) : Z := Z.of_nat (length (queue_ c)).

Definition is_closed (c : GentleChannel) : bool := closed_ c.

Definition emplace (value : T) (c : GentleChannel) : GentleChannel :=
  {| queue_ := queue_ c ++ [value];
     closed_ := closed_ c;
     max_capacity_ := max_capacity_ c |}.

Definition pop (rest : list T) (c : GentleChannel) : GentleChannel :=
  {| queue_ := rest;
     closed_ := closed_ c;
     max_capacity_ := max_capacity_ c |}.

(** The predicate of the [cv_.wait] in [send_with_care]. *)
Definition may_send (c : GentleChannel) : bool :=
  closed_ c || bool_decide (size c < max_capacity_ c).

(** The predicate of the [cv_.wait] in [receive_with_patience]. *)
Definition may_receive (c : GentleChannel) : bool :=
  negb (bool_decide (queue_ c = [])) || closed_ c.

(** [send_with_care] from its [cv_.wait] on, entered with the mutex held:
    [None] when the predicate is false and the thread goes (back) to sleep,
    otherwise the returned [bool].  A woken sender runs exactly this. *)
Definition send_after_wait (value : T) (c : GentleChannel)
  : option bool * GentleChannel :=
  if may_send c then
    if closed_ c then (Some false, c)
    else (Some true, emplace value c)
  else (None, c).

(** [send_with_care] from its entry. *)
Definition send_with_care (value : T) (c : GentleChannel)
  : option bool * GentleChannel :=
  if closed_ c then (Some false, c)
  else send_after_wait value c.

(** [receive_with_patience]: [None] when the thread sleeps in [cv_.wait],
    otherwise the returned [std::optional<T>].  The wait is the first
    statement, so a woken receiver runs the same code. *)
Definition receive_with_patience (c : GentleChannel)
  : option (option T) * GentleChannel :=
  if may_receive c then
    match queue_ c with
    | [] => (Some None, c)
    | value :: rest => (Some (Some value), pop rest c)
    end
  else (None, c).

Definition close_gently (c : GentleChannel) : GentleChannel :=
  {| queue_ := queue_ c; closed_ := true; max_capacity_ := max_capacity_ c |}.

(** A channel with the threads sleeping on its condition variable: the
    values of the senders inside [send_with_care], and the number of
    receivers inside [receive_with_patience]. *)
Record shared : Type := mkShared {
  chan : GentleChannel;
  senders : list T;
  receivers : nat
}.

(** What can happen next: a thread calls a member function, or a sleeping
    thread wakes up (by a notify or spuriously) and tests its predicate. *)
Inductive event : Type :=
| CallSend (value : T)
| CallReceive
| CallClose
| WakeSender (i : nat)
| WakeReceiver.

(** What the event's thread got back, when its call returned. *)
Inductive returned : Type :=
| SendReturned (ok : bool)
| ReceiveReturned (item : option T)
| CloseReturned
| Sleeping.

Definition fire (e : event) (s : shared) : option (returned * shared) :=
  match e with
  | CallSend value =>
      match send_with_care value (chan s) with
      | (Some ok, c) => Some (SendReturned ok, mkShared c (senders s) (receivers s))
      | (None, c) => Some (Sleeping, mkShared c (senders s ++ [value]) (receivers s))
      end
  | WakeSender i =>
      match senders s !! i with
      | Some value =>
          match send_after_wait value (chan s) with
          | (Some ok, c) =>
              Some (SendReturned ok, mkShared c (delete i (senders s)) (receivers s))
          | (None, c) => Some (Sleeping, mkShared c (senders s) (receivers s))
          end
      | None => None
      end
  | CallReceive =>
      match receive_with_patience (chan s) with
      | (Some item, c) => Some (ReceiveReturned item, mkShared c (senders s) (receivers s))
      | (None, c) => Some (Sleeping, mkShared c (senders s) (S (receivers s)))
      end
  | WakeReceiver =>
      match receivers s with
      | S n =>
          match receive_with_patience (chan s) with
          | (Some item, c) => Some (ReceiveReturned item, mkShared c (senders s) n)
          | (None, c) => Some (Sleeping, mkShared c (senders s) (S n))
          end
      | O => None
      end
  | CallClose =>
      Some (CloseReturned, mkShared (close_gently (chan s)) (senders s) (receivers s))
  end.

Definition step (s s' : shared) : Prop :=
  exists e r, fire e s = Some (r, s').

(** A single caller issuing calls one after the other; a call that would
    sleep ends the run with [None]. *)
Inductive request : Type := Send (value : T) | Receive | Close.

Definition serve (q : request) (c : GentleChannel)
  : option (returned * GentleChannel) :=
  match q with
  | Send value =>
      match send_with_care value c with
      | (Some ok, c') => Some (SendReturned ok, c')
      | (None, _) => None
      end
  | Receive =>
      match receive_with_patience c with
      | (Some item, c') => Some (ReceiveReturned item, c')
      | (None, _) => None
      end
  | Close => Some (CloseReturned, close_gently c)
  end.

Fixpoint serve_all (qs : list request) (c : GentleChannel)
  : option (list returned * GentleChannel) :=
  match qs with
  | [] => Some ([], c)
  | q :: rest =>
      '(r, c1) ← serve q c;
      '(rs, c2) ← serve_all rest c1;
      Some (r :: rs, c2)
  end.

(** How many of the requests are receives, and how many are sends. *)
Definition is_receive (q : request) : bool :=
  match q with Receive => true | _ => false end.

Definition is_send (q : request) : bool :=
  match q with Send _ => true | _ => false end.

Definition receives (qs : list request) : nat :=
  length (List.filter is_receive qs).

Definition sends (qs : list request) : nat :=
  length (List.filter is_send qs).

(** The items handed out by the receives of a run, in order. *)
Definition received (rs : list returned) : list (option T) :=
  omap (fun r => match r with ReceiveReturned item => Some item | _ => None end) rs.

(** The answers of the sends of a run, in order. *)
Definition sent (rs : list returned) : list bool :=
  omap (fun r => match r with SendReturned ok => Some ok | _ => None end) rs.

(** The items a run has taken in and given out so far, oldest first. *)
Record ledger : Type := mkLedger {
  accepted : list T;
  delivered : list T
}.

(** The value a send event carries: the argument of the call, or the value
    the woken sender went to sleep with. *)
Definition offered (e : event) (s : shared) : option T :=
  match e with
  | CallSend value => Some value
  | WakeSender i => senders s !! i
  | _ => None
  end.

(** Enters what event [e], fired in [s] with answer [r], took in or gave
    out. *)
Definition book (e : event) (s : shared) (r : returned) (l : ledger) : ledger :=
  match r with
  | SendReturned true =>
      match offered e s with
      | Some value => mkLedger (accepted l ++ [value]) (delivered l)
      | None => l
      end
  | ReceiveReturned (Some item) => mkLedger (accepted l) (delivered l ++ [item])
  | _ => l
  end.

(** Fires the events one after the other, keeping the ledger. *)
Fixpoint play (es : list event) (s : shared) (l : ledger)
  : option (shared * ledger) :=
  match es with
  | [] => Some (s, l)
  | e :: rest =>
      '(r, s') ← fire e s;
      play rest s' (book e s r l)
  end.

(** The ledger and the queue agree: what was taken in is what was given
    out followed by what is still queued. *)
Definition balanced (s : shared) (l : ledger) : Prop :=
  accepted l = delivered l ++ queue_ (chan s).

End Chan.

Arguments GentleChannel : clear implicits.
Arguments shared : clear implicits.
Arguments event : clear implicits.
Arguments returned : clear implicits.
Arguments request : clear implicits.
Arguments ledger : clear implicits.

End Channel.

(** ** GentleMemoryPool *)

Module MemoryPool.

Section Pool.

(** The heap: [slab_base k] is the address of the array that the [k]-th
    [std::make_unique<std::byte[]>] of this pool returns. *)
Variable slab_base : nat -> Z.

(** [pools_] keeps the base address of each slab it owns; [free_blocks_] is
    the vector of free addresses, last element at the back. *)
Record GentleMemoryPool : Type := mkPool {
  pools_ : list Z;
  free_blocks_ : list Z;
  block_size_ : Z;
  blocks_per_pool_ : Z
}.

(** [base + i * block_size_], in [size_t] and pointer arithmetic. *)
Definition block_address (base block_size i : Z) : Z :=
  wrap (base + wrap (i * block_size)).

(** The addresses pushed by the [for] loop of [allocate_new_pool]. *)
Definition slab_blocks (base block_size blocks : Z) : list Z :=
  map (fun i : nat => block_address base block_size (Z.of_nat i))
      (seq 0 (Z.to_nat blocks)).

Definition allocate_new_pool (p : GentleMemoryPool) : GentleMemoryPool :=
  let base := slab_base (length (pools_ p)) in
  {| pools_ := pools_ p ++ [base];
     free_blocks_ :=
       free_blocks_ p ++ slab_blocks base (block_size_ p) (blocks_per_pool_ p);
     block_size_ := block_size_ p;
     blocks_per_pool_ := blocks_per_pool_ p |}.

(** [GentleMemoryPool(size_t block_size, size_t initial_blocks = 1024)] *)
Definition construct (block_size initial_blocks : Z) : GentleMemoryPool :=
  allocate_new_pool
    {| pools_ := []; free_blocks_ := [];
       block_size_ := block_size; blocks_per_pool_ := initial_blocks |}.

Definition with_free (free : list Z) (p : GentleMemoryPool) : GentleMemoryPool :=
  {| pools_ := pools_ p;
     free_blocks_ := free;
     block_size_ := block_size_ p;
     blocks_per_pool_ := blocks_per_pool_ p |}.

(** [allocate_gently]: the returned address and the pool afterwards; [None]
    when [free_blocks_.back()] is called on an empty vector, which has no
    defined behaviour. *)
Definition allocate_gently (p : GentleMemoryPool)
  : option (Z * GentleMemoryPool) :=
  let p1 := if bool_decide (free_blocks_ p = []) then allocate_new_pool p else p in
  match last (free_blocks_ p1) with
  | Some ptr => Some (ptr, with_free (removelast (free_blocks_ p1)) p1)
  | None => None
  end.

Definition deallocate_gently (ptr : Z) (p : GentleMemoryPool) : GentleMemoryPool :=
  with_free (free_blocks_ p ++ [ptr]) p.

(** A client of the pool and the addresses it currently holds: those
    [allocate_gently] returned and [deallocate_gently] has not been given
    back, most recent first. *)
Record client : Type := mkClient {
  pool : GentleMemoryPool;
  outstanding : list Z
}.

Inductive pool_op : Type := Allocate | Deallocate (ptr : Z).

(** Remove one occurrence of [ptr]. *)
Fixpoint give_back (ptr : Z) (held : list Z) : list Z :=
  match held with
  | [] => []
  | q :: rest => if bool_decide (q = ptr) then rest else q :: give_back ptr rest
  end.

Definition perform (op : pool_op) (c : client) : option client :=
  match op with
  | Allocate =>
      '(ptr, p) ← allocate_gently (pool c);
      Some {| pool := p; outstanding := ptr :: outstanding c |}
  | Deallocate ptr =>
      Some {| pool := deallocate_gently ptr (pool c);
              outstanding := give_back ptr (outstanding c) |}
  end.

(** The proviso on the caller: [deallocate_gently] is only given an address
    it holds. *)
Definition permitted (op : pool_op) (c : client) : Prop :=
  match op with
  | Allocate => True
  | Deallocate ptr => ptr ∈ outstanding c
  end.

(** [serves c ops c']: the calls [ops], each permitted when it is made, take
    the client from [c] to [c']. *)
Inductive serves : client -> list pool_op -> client -> Prop :=
| serves_nil c : serves c [] c
| serves_cons c op c1 ops c2 :
    permitted op c -> perform op c = Some c1 -> serves c1 ops c2 ->
    serves c (op :: ops) c2.

Definition fresh_client (block_size initial_blocks : Z) : client :=
  {| pool := construct block_size initial_blocks; outstanding := [] |}.

(** The bytes of slab [k]: [make_unique] is asked for
    [block_size_ * blocks_per_pool_] bytes, computed in [size_t]. *)
Definition slab_bytes (block_size blocks : Z) : Z := wrap (block_size * blocks).

(** What the heap guarantees for the first [n] slabs of a pool: each array
    lies inside the address space and no two of them overlap. *)
Definition heap_ok (block_size blocks : Z) (n : nat) : Prop :=
  forall k : nat, (k < n)%nat ->
    0 <= slab_base k /\
    slab_base k + slab_bytes block_size blocks <= 2 ^ 64 /\
    forall k' : nat, (k' < n)%nat -> k <> k' ->
      slab_base k + slab_bytes block_size blocks <= slab_base k' \/
      slab_base k' + slab_bytes block_size blocks <= slab_base k.

(** [a] is the address of block [j] of slab [k]. *)
Definition block_of (block_size blocks : Z) (k : nat) (j : Z) (a : Z) : Prop :=
  0 <= j < blocks /\ a = slab_base k + j * block_size.

(** The invariant of a pool and its client: the configuration is the one
    given at construction, no address is twice among the free and the held
    ones, and each of them is a block of a slab the pool owns. *)
Definition consistent (block_size blocks : Z) (c : client) : Prop :=
  block_size_ (pool c) = block_size /\
  blocks_per_pool_ (pool c) = blocks /\
  NoDup (free_blocks_ (pool c) ++ outstanding c) /\
  forall a, a ∈ free_blocks_ (pool c) ++ outstanding c ->
    exists k j, (k < length (pools_ (pool c)))%nat /\ block_of block_size blocks k j a.

(** [n] calls of [allocate_gently] in a row: the addresses returned, in
    the order of the calls, and the pool afterwards. *)
Fixpoint allocates (n : nat) (p : GentleMemoryPool)
  : option (list Z * GentleMemoryPool) :=
  match n with
  | O => Some ([], p)
  | S n =>
      '(ptr, p1) ← allocate_gently p;
      '(ptrs, p2) ← allocates n p1;
      Some (ptr :: ptrs, p2)
  end.

(** [deallocate_gently] for each address of [ptrs], in order. *)
Definition deallocates (ptrs : list Z) (p : GentleMemoryPool) : GentleMemoryPool :=
  foldl (fun q ptr => deallocate_gently ptr q) p ptrs.

End Pool.

(** A heap for the examples: successive arrays 64 bytes apart from 4096 on. *)
Definition bump_heap (k : nat) : Z := 4096 + 64 * Z.of_nat k.

End MemoryPool.

(** ** GentleMutex *)

Module Mutex.

Record GentleMutex : Type := mkMutex {
  current_holder_ : string
}.

Definition current_holder (m : GentleMutex) : string := current_holder_ m.

Section Lock.
Context {Env R : Type}.

(** A callback [func()]: it runs on the state [Env] its captures refer to,
    can read [current_holder()], and returns a value or throws. *)
Definition job : Type := string -> Env -> (Task.exn + R) * Env.

(** [with_gentle_lock]: [current_holder_] is set for the time of the call
    and cleared on both ways out; the [catch (...)] rethrows. *)
Definition with_gentle_lock (func : job) (holder_name : string)
    (m : GentleMutex) (env : Env)
  : (Task.exn + R) * Env * GentleMutex :=
  let m1 := {| current_holder_ := holder_name |} in
  match func (current_holder m1) env with
  | (inr result, env') => (inr result, env', {| current_holder_ := "" |})
  | (inl e, env') => (inl e, env', {| current_holder_ := "" |})
  end.

(** Calls of [with_gentle_lock] one after the other, each with its holder
    name; a thrown exception is caught by the caller, who goes on. *)
Fixpoint with_gentle_locks (calls : list (job * string))
    (m : GentleMutex) (env : Env)
  : list (Task.exn + R) * Env * GentleMutex :=
  match calls with
  | [] => ([], env, m)
  | (func, holder_name) :: rest =>
      let '(r, env1, m1) := with_gentle_lock func holder_name m env in
      let '(rs, env2, m2) := with_gentle_locks rest m1 env1 in
      (r :: rs, env2, m2)
  end.

End Lock.

End Mutex.

(** * Properties *)

(** ** [size_t] counters away from their bounds *)



(** ** GentleOwnership *)

Section OwnershipFacts.
Import Ownership.
Context {T R : Type}.
Implicit Types (c : GentleOwnership T) (op : cell_op T R).

Lemma call_on_empty op c :
  data_ c = None ->
  refused op (call op c).1 /\ data_ (call op c).2 = None.
Proof.
  intros Hc.
  destruct op; unfold refused; simpl;
    unfold borrow_gently, borrow_mutably, transfer_with_care;
    rewrite ?Hc; simpl; split; congruence.
Qed.

Lemma transfer_empties o c v c' :
  transfer_with_care o c = (inr v, c') -> data_ c' = None.
Proof.
  unfold transfer_with_care. destruct (data_ c); intros H; simplify_eq.
  reflexivity.
Qed.

(** C1. Once a cell is empty, whatever sequence of calls follows, each
    [borrow_gently], [borrow_mutably] and [transfer_with_care] in it raises
    [UseAfterTransfer], and the cell is still empty (and reports itself
    unavailable) at the end: nothing refills it. *)
Theorem empty_cell_stays_empty (ops : list (cell_op T R)) : forall c,
  data_ c = None ->
  Forall2 refused ops (calls ops c).1 /\
  data_ (calls ops c).2 = None /\
  is_available (calls ops c).2 = false.
Proof.
  induction ops as [|op rest IH]; intros c Hc; simpl.
  - repeat split; [constructor | exact Hc |].
    unfold is_available. rewrite Hc. reflexivity.
  - destruct (call_on_empty op c Hc) as [Hr Hd].
    destruct (call op c) as [r c1] eqn:E1; simpl in *.
    destruct (IH c1 Hd) as (Hrs & Hd2 & Ha).
    destruct (calls rest c1) as [rs c2] eqn:E2; simpl in *.
    repeat split; [constructor |..]; assumption.
Qed.

(** On a cell that holds [v], [transfer_with_care o] returns [v], leaves
    the cell empty and records [o] as the owner. *)
Lemma transfer_of_full_cell o c v :
  data_ c = Some v ->
  transfer_with_care o c = (inr v, {| data_ := None; owner_name_ := o |}).
Proof. intros Hc. unfold transfer_with_care. rewrite Hc. reflexivity. Qed.

End OwnershipFacts.

Section OwnershipScenario.
Import Ownership.

(** C7. A cell that holds [v] gives [v] to the caller of
    [transfer_with_care o], is empty afterwards and has [o] as its
    [current_owner]; and in the scenario, the cell of "A" built on 0 holds 1
    after the incrementing [borrow_mutably], its transfer to "B" returns 1,
    and [current_owner] then answers "B". *)
Theorem transfer_moves_value_and_renames_owner
    {T : Type} (c : GentleOwnership T) (v : T) (o : string) :
  data_ c = Some v ->
  (exists c',
     transfer_with_care o c = (inr v, c') /\
     data_ c' = None /\ current_owner c' = o) /\
  data_ cell_A_incremented = Some 1 /\
  (exists c',
     transfer_with_care "B" cell_A_incremented = (inr 1, c') /\
     current_owner c' = "B" /\
     (borrow_gently peek c').1 = inl UseAfterTransfer).
Proof.
  intros Hc. split; [|split].
  - eexists. split; [apply transfer_of_full_cell, Hc |]. split; reflexivity.
  - reflexivity.
  - eexists. split; [reflexivity |]. split; reflexivity.
Qed.

Lemma transfer_moves_value_witness :
  data_ cell_A_incremented = Some 1 /\
  exists c',
    transfer_with_care "B" cell_A_incremented = (inr 1, c') /\
    data_ c' = None /\ current_owner c' = "B".
Proof.
  split; [reflexivity |].
  apply (transfer_moves_value_and_renames_owner cell_A_incremented 1 "B").
  reflexivity.
Defined.

Lemma empty_cell_witness :
  let c := (transfer_with_care "B" cell_A_incremented).2 in
  let ops := [BorrowShared peek; Transfer "C"; BorrowExclusive peek] in
  data_ c = None /\
  Forall2 refused ops (calls ops c).1 /\
  data_ (calls ops c).2 = None /\
  is_available (calls ops c).2 = false.
Proof.
  split; [apply (transfer_empties "B" cell_A_incremented 1); reflexivity |].
  apply (empty_cell_stays_empty
           [BorrowShared peek; Transfer "C"; BorrowExclusive peek]).
  reflexivity.
Defined.

End OwnershipScenario.

(** ** GentleTask and GentleScheduler *)

Section SchedulerFacts.
Import Task Scheduler.
Implicit Types (t task : GentleTask) (s : GentleScheduler) (i : nat).

Lemma pop_back_snoc {A : Type} (l : list A) (x : A) :
  pop_back (l ++ [x]) = Some (x, l).
Proof. unfold pop_back. rewrite last_snoc, removelast_last. reflexivity. Qed.

(** Nothing thrown by a body leaves [handle_.resume()]. *)
Lemma resume_contains f : (resume f).2 = None.
Proof. destruct f as [body pc|]; simpl; [destruct (body pc) |]; reflexivity. Qed.

(** Nor, therefore, [resume_gently]. *)
Lemma resume_gently_contains t : (resume_gently t).2 = None.
Proof.
  unfold resume_gently. destruct (handle_ t) as [f|]; [|reflexivity].
  destruct (done f); [reflexivity |].
  pose proof (resume_contains f) as Hf.
  destruct (resume f) as [[f' out] thrown]. simpl in Hf. subst thrown.
  reflexivity.
Qed.

Lemma resume_gently_keeps_name t :
  task_name_ (resume_gently t).1.1 = task_name_ t.
Proof.
  unfold resume_gently. destruct (handle_ t) as [f|]; [|reflexivity].
  destruct (done f); [reflexivity |].
  destruct (resume f) as [[f' out] [[what|]|]]; reflexivity.
Qed.

(** Brings updates of an explicit scheduler record back to a record. *)
Ltac flatten :=
  unfold set_worker, set_tasks, print, task_counted, task_no_longer_active;
  cbn [tasks_ should_stop_ worker_threads_ active_tasks_
       total_tasks_created_ total_tasks_completed_ cout mbind option_bind].

(** The four moves of a worker, one lemma each. *)
Lemma worker_takes_last i s ts t :
  worker_threads_ s !! i = Some Waiting ->
  should_stop_ s = false ->
  tasks_ s = ts ++ [t] ->
  worker_step i s = Some (set_worker i (Holding t) (set_tasks ts s)).
Proof.
  intros Hw Hs Ht. unfold worker_step.
  rewrite Hw, Hs, Ht, pop_back_snoc. reflexivity.
Qed.

Lemma worker_resumes i s t :
  worker_threads_ s !! i = Some (Holding t) ->
  worker_step i s =
    Some (set_worker i (Resumed (resume_gently t).1.1)
            (print (resume_gently t).1.2 s)).
Proof.
  intros Hw. unfold worker_step. rewrite Hw.
  pose proof (resume_gently_contains t) as Hc.
  destruct (resume_gently t) as [[t' out] thrown]. simpl in *.
  subst thrown. reflexivity.
Qed.

Lemma worker_requeues i s t :
  worker_threads_ s !! i = Some (Resumed t) ->
  is_done t = false ->
  worker_step i s = Some (set_worker i Waiting (set_tasks (tasks_ s ++ [t]) s)).
Proof. intros Hw Hd. unfold worker_step. rewrite Hw, Hd. reflexivity. Qed.

Lemma worker_decrements i s t :
  worker_threads_ s !! i = Some (Resumed t) ->
  is_done t = true ->
  worker_step i s = Some (set_worker i (Counting t) (task_no_longer_active s)).
Proof. intros Hw Hd. unfold worker_step. rewrite Hw, Hd. reflexivity. Qed.

Lemma worker_increments i s t :
  worker_threads_ s !! i = Some (Counting t) ->
  worker_step i s =
    Some (set_worker i Waiting
            (print [TaskCompleted (task_name_ t)] (task_counted s))).
Proof. intros Hw. unfold worker_step. rewrite Hw. reflexivity. Qed.

(** The loop body as a whole, for a worker at the wait with a task to take. *)
Lemma worker_iteration_unfolded i s ts t :
  worker_threads_ s !! i = Some Waiting ->
  should_stop_ s = false ->
  tasks_ s = ts ++ [t] ->
  let t' := (resume_gently t).1.1 in
  let out := (resume_gently t).1.2 in
  worker_iteration i s =
    Some (if is_done t'
          then {| tasks_ := ts;
                  should_stop_ := false;
                  worker_threads_ := worker_threads_ s;
                  active_tasks_ := fetch_sub (active_tasks_ s) 1;
                  total_tasks_created_ := total_tasks_created_ s;
                  total_tasks_completed_ := fetch_add (total_tasks_completed_ s) 1;
                  cout := (cout s ++ out) ++ [TaskCompleted (task_name_ t)] |}
          else {| tasks_ := ts ++ [t'];
                  should_stop_ := false;
                  worker_threads_ := worker_threads_ s;
                  active_tasks_ := active_tasks_ s;
                  total_tasks_created_ := total_tasks_created_ s;
                  total_tasks_completed_ := total_tasks_completed_ s;
                  cout := cout s ++ out |}).
Proof.
  intros Hw Hs Ht t' out.
  assert (Hi : (i < length (worker_threads_ s))%nat)
    by (eapply lookup_lt_Some; exact Hw).
  destruct s as [ts0 stop ws act created completed console].
  simpl in Hw, Hs, Ht, Hi |- *. subst ts0 stop.
  assert (Hpos : forall w, <[i := w]> ws !! i = Some w)
    by (intros w; apply list_lookup_insert_eq; exact Hi).
  assert (Hback : forall w, <[i := Waiting]> (<[i := w]> ws) = ws).
  { intros w. rewrite list_insert_insert_eq. apply list_insert_id. exact Hw. }
  unfold worker_iteration.
  rewrite (worker_takes_last i _ ts t) by first [exact Hw | reflexivity].
  flatten.
  rewrite (worker_resumes i _ t) by apply Hpos.
  fold t' out. flatten. rewrite list_insert_insert_eq.
  destruct (is_done t') eqn:Hd.
  - rewrite (worker_decrements i _ t') by first [exact Hd | apply Hpos].
    flatten. rewrite list_insert_insert_eq, Hpos.
    rewrite (worker_increments i _ t') by apply Hpos.
    flatten. rewrite Hback.
    unfold t'. rewrite resume_gently_keeps_name. reflexivity.
  - rewrite (worker_requeues i _ t') by first [exact Hd | apply Hpos].
    flatten. rewrite Hback, Hw. reflexivity.
Qed.



(** C5 fails on the code.  A failure raised while a task is resumed is
    taken by [unhandled_exception] inside [handle_.resume()]: it is printed
    and nothing leaves [resume_gently].  But the body has ended and released
    its frame while [handle_] still points at it: the task is not done for
    [is_done], the worker neither counts nor announces it and puts it back
    into the queue, the queued tasks before it as they were, with a
    dangling handle that the next turn of a worker will resume. *)
Theorem failure_leaves_a_dangling_task_in_the_queue t body pc e i s ts :
  handle_ t = Some (Live body pc) ->
  body pc = Throw e ->
  worker_threads_ s !! i = Some Waiting ->
  should_stop_ s = false ->
  tasks_ s = ts ++ [t] ->
  resume_gently t = (with_frame Dangling t, [CoroutineTrouble], None) /\
  handle_ (resume_gently t).1.1 = Some Dangling /\
  is_done (resume_gently t).1.1 = false /\
  worker_iteration i s =
    Some {| tasks_ := ts ++ [with_frame Dangling t];
            should_stop_ := false;
            worker_threads_ := worker_threads_ s;
            active_tasks_ := active_tasks_ s;
            total_tasks_created_ := total_tasks_created_ s;
            total_tasks_completed_ := total_tasks_completed_ s;
            cout := cout s ++ [CoroutineTrouble] |}.
Proof.
  intros Hh Hb Hw Hs Ht.
  assert (Hr : resume_gently t = (with_frame Dangling t, [CoroutineTrouble], None)).
  { unfold resume_gently. rewrite Hh. simpl. rewrite Hb. reflexivity. }
  split; [exact Hr |]. rewrite Hr. split; [reflexivity |]. split; [reflexivity |].
  rewrite (worker_iteration_unfolded i s ts t Hw Hs Ht). simpl.
  rewrite Hr. reflexivity.
Qed.

Lemma failure_leaves_a_dangling_task_witness :
  let s := spawn_gently failing_task (spawn_gently yielding_task (construct 1)) in
  resume_gently failing_task =
    (with_frame Dangling failing_task, [CoroutineTrouble], None) /\
  is_done (resume_gently failing_task).1.1 = false /\
  worker_iteration 0 s =
    Some {| tasks_ := [yielding_task; with_frame Dangling failing_task];
            should_stop_ := false;
            worker_threads_ := [Waiting];
            active_tasks_ := 2;
            total_tasks_created_ := 2;
            total_tasks_completed_ := 0;
            cout := [CoroutineTrouble] |}.
Proof.
  pose proof (failure_leaves_a_dangling_task_in_the_queue
                failing_task (fun _ => Throw (StdException "boom")) 0%nat
                (StdException "boom") 0%nat
                (spawn_gently failing_task (spawn_gently yielding_task (construct 1)))
                [yielding_task]
                eq_refl eq_refl eq_refl eq_refl eq_refl) as (Hr & _ & Hd & Hit).
  split; [exact Hr |]. split; [exact Hd | exact Hit].
Defined.

(** No worker is ever taken down by a task: [worker_step] never leaves a
    thread in [Crashed] that was not already there. *)
Lemma worker_step_never_crashes i s s' j e :
  worker_step i s = Some s' ->
  worker_threads_ s' !! j = Some (Crashed e) ->
  worker_threads_ s !! j = Some (Crashed e).
Proof.
  unfold worker_step. intros Hstep Hj.
  destruct (worker_threads_ s !! i) as [w|] eqn:Hw; [|discriminate].
  assert (Hi : (i < length (worker_threads_ s))%nat)
    by (eapply lookup_lt_Some; exact Hw).
  assert (Hset : forall w' s0,
            worker_threads_ s0 = worker_threads_ s ->
            s' = set_worker i w' s0 -> (forall e', w' <> Crashed e') ->
            worker_threads_ s !! j = Some (Crashed e)).
  { intros w' s0 H0 -> Hne. simpl in Hj. rewrite H0 in Hj.
    destruct (decide (i = j)) as [->|Hij].
    - rewrite list_lookup_insert_eq in Hj by exact Hi.
      simplify_eq. exfalso. eapply Hne. reflexivity.
    - rewrite list_lookup_insert_ne in Hj by exact Hij. exact Hj. }
  destruct w as [|t|t|t|e'|]; try discriminate.
  - destruct (should_stop_ s).
    + simplify_eq. eapply Hset; [reflexivity | reflexivity | discriminate].
    + destruct (pop_back (tasks_ s)) as [[t r]|]; [|discriminate].
      simplify_eq. eapply (Hset _ (set_tasks r s)); [reflexivity..| discriminate].
  - pose proof (resume_gently_contains t) as Hc.
    destruct (resume_gently t) as [[t' out] thrown]. simpl in Hc. subst thrown.
    simplify_eq. eapply (Hset _ (print out s)); [reflexivity..| discriminate].
  - destruct (is_done t); simplify_eq.
    + eapply (Hset _ (task_no_longer_active s)); [reflexivity..| discriminate].
    + eapply (Hset _ (set_tasks _ s)); [reflexivity..| discriminate].
  - simplify_eq.
    eapply (Hset _ (print _ (task_counted s))); [reflexivity..| discriminate].
Qed.

Lemma wrap_range z : 0 <= wrap z <= SIZE_MAX.
Proof.
  unfold wrap, SIZE_MAX. pose proof (Z.mod_pos_bound z (2 ^ 64)). lia.
Qed.

Lemma wrap_eq z : exists q, wrap z = z - 2 ^ 64 * q.
Proof.
  exists (z / 2 ^ 64). unfold wrap. rewrite Z.mod_eq by lia. reflexivity.
Qed.

Lemma counting_replace ws i w0 w :
  ws !! i = Some w0 ->
  counting (<[i := w]> ws) =
    counting ws - Z.b2z (is_counting w0) + Z.b2z (is_counting w).
Proof.
  unfold counting. revert i.
  induction ws as [|x ws IH]; intros [|i] Hi; simpl in *; try discriminate.
  - simplify_eq. destruct (is_counting w0), (is_counting w); simpl; lia.
  - specialize (IH i Hi). destruct (is_counting x); simpl; lia.
Qed.

Lemma counting_replicate_waiting (n : nat) : counting (replicate n Waiting) = 0.
Proof. unfold counting. induction n as [|n IH]; simpl; [reflexivity | exact IH]. Qed.

Lemma construct_counters_agree (n : nat) : counters_agree (construct n).
Proof.
  unfold counters_agree, SIZE_MAX. simpl. rewrite counting_replicate_waiting.
  repeat split; try lia. exists 0. lia.
Qed.

Lemma worker_step_counters_agree i s s' :
  worker_step i s = Some s' -> counters_agree s -> counters_agree s'.
Proof.
  unfold worker_step, counters_agree.
  intros Hstep (Ha & Hcr & Hco & k & Hk).
  destruct (worker_threads_ s !! i) as [w|] eqn:Hw; [|discriminate].
  destruct w as [|t|t|t|e|]; try discriminate.
  - destruct (should_stop_ s).
    + simplify_eq. simpl. rewrite (counting_replace _ _ _ _ Hw). simpl.
      repeat split; try lia. exists k. lia.
    + destruct (pop_back (tasks_ s)) as [[t r]|]; [|discriminate].
      simplify_eq. simpl. rewrite (counting_replace _ _ _ _ Hw). simpl.
      repeat split; try lia. exists k. lia.
  - destruct (resume_gently t) as [[t' out] [e|]];
      simplify_eq; simpl; rewrite (counting_replace _ _ _ _ Hw); simpl;
      (repeat split; try lia); exists k; lia.
  - destruct (is_done t); simplify_eq; simpl;
      rewrite (counting_replace _ _ _ _ Hw); simpl.
    + destruct (wrap_eq (active_tasks_ s - 1)) as [q Hq].
      pose proof (wrap_range (active_tasks_ s - 1)).
      unfold fetch_sub. repeat split; try lia. exists (k + q). lia.
    + repeat split; try lia. exists k. lia.
  - simplify_eq. simpl. rewrite (counting_replace _ _ _ _ Hw). simpl.
    destruct (wrap_eq (total_tasks_completed_ s + 1)) as [q Hq].
    pose proof (wrap_range (total_tasks_completed_ s + 1)).
    unfold fetch_add. repeat split; try lia. exists (k + q). lia.
Qed.

Lemma fire_counters_agree e s s' :
  fire e s = Some s' -> counters_agree s -> counters_agree s'.
Proof.
  destruct e as [t|i]; simpl.
  - intros Hs (Ha & Hcr & Hco & k & Hk). simplify_eq.
    unfold counters_agree. simpl.
    destruct (wrap_eq (active_tasks_ s + 1)) as [q1 Hq1].
    destruct (wrap_eq (total_tasks_created_ s + 1)) as [q2 Hq2].
    pose proof (wrap_range (active_tasks_ s + 1)).
    pose proof (wrap_range (total_tasks_created_ s + 1)).
    unfold fetch_add. repeat split; try lia. exists (k - q2 + q1). lia.
  - apply worker_step_counters_agree.
Qed.

Lemma run_counters_agree es : forall s s',
  run es s = Some s' -> counters_agree s -> counters_agree s'.
Proof.
  induction es as [|e es IH]; intros s s' Hrun Hs; simpl in Hrun.
  - simplify_eq. exact Hs.
  - destruct (fire e s) as [s1|] eqn:He; simpl in Hrun; [|discriminate].
    apply (IH s1 s' Hrun). apply (fire_counters_agree e s s1 He Hs).
Qed.

(** What does hold when [await_all_with_patience] leaves its loop with both
    its loads in state [s], after any interleaving of worker moves and
    critical sections of [spawn_gently]:
    [active_tasks_] is 0, and [total_tasks_completed_] equals
    [total_tasks_created_] as soon as no worker stands between its
    decrement and its increment. *)
Lemma await_all_returns_with_all_counted_once_workers_caught_up
    (n : nat) es s line :
  run es (construct n) = Some s ->
  await_all_with_patience s = Some line ->
  active_tasks_ s = 0 /\
  (counting (worker_threads_ s) = 0 ->
   total_tasks_completed_ s = total_tasks_created_ s).
Proof.
  intros Hrun Hawait.
  destruct (run_counters_agree es _ _ Hrun (construct_counters_agree n))
    as (Ha & Hcr & Hco & k & Hk).
  unfold await_all_with_patience in Hawait.
  destruct (0 <? active_tasks_ s) eqn:Hpos; [discriminate |].
  apply Z.ltb_ge in Hpos.
  split; [lia |]. intros Hcount. unfold SIZE_MAX in *. lia.
Qed.

(** C4 fails on the code, in two ways.
    One worker and one task without a coroutine, which [is_done] takes for
    done: the worker takes it, calls [resume_gently], which returns at once,
    and executes [active_tasks_.fetch_sub(1)]; the thread in
    [await_all_with_patience] then loads 0, leaves its loop and announces 0
    completed tasks, while [total_tasks_created_] is 1.  The worker's
    [total_tasks_completed_.fetch_add(1)] comes only with its next move.
    One worker and one task whose body returns when it is resumed: the
    body ends and releases its frame, [is_done] asks the dangling handle
    and is not told that the task is done, and the worker puts the task
    back uncounted; [active_tasks_] stays 1 and [await_all_with_patience]
    goes on polling. *)
Theorem await_all_returns_before_completion_is_counted :
  (exists s,
     run [Spawn handleless_task; Work 0; Work 0; Work 0] (construct 1) = Some s /\
     await_all_with_patience s = Some (AllCompleted 0) /\
     active_tasks_ s = 0 /\
     total_tasks_created_ s = 1 /\
     total_tasks_completed_ s = 0 /\
     total_tasks_completed_ s <> total_tasks_created_ s /\
     exists s', fire (Work 0) s = Some s' /\ total_tasks_completed_ s' = 1) /\
  (exists s,
     run [Spawn returning_task; Work 0; Work 0; Work 0] (construct 1) = Some s /\
     tasks_ s = [with_frame Dangling returning_task] /\
     worker_threads_ s = [Waiting] /\
     active_tasks_ s = 1 /\
     total_tasks_completed_ s = 0 /\
     await_all_with_patience s = None).
Proof.
  split.
  - eexists. split; [reflexivity |].
    repeat split; try reflexivity.
    + discriminate.
    + eexists. split; reflexivity.
  - eexists. split; [reflexivity |]. repeat split; reflexivity.
Qed.

End SchedulerFacts.

(** ** GentleChannel *)

Section ChannelFacts.
Import Channel.
Context {T : Type}.
Implicit Types (c : GentleChannel T) (s : shared T) (v : T).

Lemma send_after_wait_cases v c :
  (closed_ c = true /\ send_after_wait v c = (Some false, c)) \/
  (closed_ c = false /\ size c < max_capacity_ c /\
   send_after_wait v c = (Some true, emplace v c)) \/
  (closed_ c = false /\ max_capacity_ c <= size c /\
   send_after_wait v c = (None, c)).
Proof.
  unfold send_after_wait, may_send.
  destruct (closed_ c) eqn:Hc; simpl; [left; auto |].
  right. case_bool_decide; [left | right]; repeat split; auto; lia.
Qed.

Lemma send_with_care_cases v c :
  (closed_ c = true /\ send_with_care v c = (Some false, c)) \/
  (closed_ c = false /\ size c < max_capacity_ c /\
   send_with_care v c = (Some true, emplace v c)) \/
  (closed_ c = false /\ max_capacity_ c <= size c /\
   send_with_care v c = (None, c)).
Proof.
  unfold send_with_care.
  destruct (send_after_wait_cases v c) as [[Hc H]|[(Hc & Hs & H)|(Hc & Hs & H)]];
    rewrite Hc; [left | right; left | right; right]; auto.
Qed.

Lemma receive_cases c :
  (exists v rest, queue_ c = v :: rest /\
     receive_with_patience c = (Some (Some v), pop rest c)) \/
  (queue_ c = [] /\ closed_ c = true /\
     receive_with_patience c = (Some None, c)) \/
  (queue_ c = [] /\ closed_ c = false /\
     receive_with_patience c = (None, c)).
Proof.
  unfold receive_with_patience, may_receive.
  destruct (queue_ c) as [|v rest] eqn:Hq.
  - right. destruct (closed_ c); simpl; [left | right]; auto.
  - left. exists v, rest. simpl. auto.
Qed.

Lemma size_emplace v c : size (emplace v c) = size c + 1.
Proof. unfold size, emplace. simpl. rewrite length_app. simpl. lia. Qed.

(** What one event may do to the channel: nothing, close it, append one
    item while it is open and below capacity, or take the front item. *)
Inductive effect c : GentleChannel T -> returned T -> Prop :=
| effect_none r : r <> SendReturned true -> effect c c r
| effect_close : effect c (close_gently c) CloseReturned
| effect_emplace v :
    closed_ c = false -> size c < max_capacity_ c ->
    effect c (emplace v c) (SendReturned true)
| effect_pop v rest :
    queue_ c = v :: rest -> effect c (pop rest c) (ReceiveReturned (Some v)).

Lemma fire_effect e s r s' :
  fire e s = Some (r, s') -> effect (chan s) (chan s') r.
Proof.
  destruct e as [v| | |i|]; simpl.
  - destruct (send_with_care_cases v (chan s))
      as [[Hc H]|[(Hc & Hs & H)|(Hc & Hs & H)]];
      rewrite H; intros ?; simplify_eq; simpl.
    + constructor. discriminate.
    + constructor; assumption.
    + constructor. discriminate.
  - destruct (receive_cases (chan s))
      as [(v & rest & Hq & H)|[(Hq & Hc & H)|(Hq & Hc & H)]];
      rewrite H; intros ?; simplify_eq; simpl.
    + econstructor. exact Hq.
    + constructor. discriminate.
    + constructor. discriminate.
  - intros ?; simplify_eq. simpl. constructor.
  - destruct (senders s !! i) as [v|]; [|discriminate].
    destruct (send_after_wait_cases v (chan s))
      as [[Hc H]|[(Hc & Hs & H)|(Hc & Hs & H)]];
      rewrite H; intros ?; simplify_eq; simpl.
    + constructor. discriminate.
    + constructor; assumption.
    + constructor. discriminate.
  - destruct (receivers s) as [|n]; [discriminate |].
    destruct (receive_cases (chan s))
      as [(v & rest & Hq & H)|[(Hq & Hc & H)|(Hq & Hc & H)]];
      rewrite H; intros ?; simplify_eq; simpl.
    + econstructor. exact Hq.
    + constructor. discriminate.
    + constructor. discriminate.
Qed.

Lemma effect_bounded c c' r :
  effect c c' r ->
  size c <= max_capacity_ c ->
  size c' <= max_capacity_ c' /\ max_capacity_ c' = max_capacity_ c.
Proof.
  intros [r' Hr| |v Hc Hs|v rest Hq] Hb; simpl; split; try reflexivity; try exact Hb.
  - change (size (emplace v c) <= max_capacity_ c). rewrite size_emplace. lia.
  - unfold size in *. simpl. rewrite Hq in Hb. simpl in Hb. lia.
Qed.

Lemma effect_closed c c' r :
  effect c c' r ->
  closed_ c = true ->
  closed_ c' = true /\ r <> SendReturned true /\
  (queue_ c' = queue_ c \/ exists v, queue_ c = v :: queue_ c').
Proof.
  intros [r' Hr| |v Hc Hs|v rest Hq] Hcl; simpl.
  - auto.
  - split; [reflexivity |]. split; [discriminate | auto].
  - congruence.
  - split; [exact Hcl |]. split; [discriminate |]. right. exists v. exact Hq.
Qed.

Lemma step_bounded s s' :
  step s s' ->
  size (chan s) <= max_capacity_ (chan s) ->
  size (chan s') <= max_capacity_ (chan s') /\
  max_capacity_ (chan s') = max_capacity_ (chan s).
Proof.
  intros (e & r & Hf). apply (effect_bounded _ _ r). eapply fire_effect, Hf.
Qed.

Lemma steps_bounded s s' :
  rtc step s s' ->
  size (chan s) <= max_capacity_ (chan s) ->
  size (chan s') <= max_capacity_ (chan s') /\
  max_capacity_ (chan s') = max_capacity_ (chan s).
Proof.
  induction 1 as [s|s s1 s2 Hstep _ IH]; intros Hb; [auto |].
  destruct (step_bounded _ _ Hstep Hb) as [Hb1 Hcap].
  destruct (IH Hb1) as [Hb2 Hcap2]. split; [exact Hb2 | congruence].
Qed.

Lemma steps_closed s s' :
  rtc step s s' ->
  closed_ (chan s) = true ->
  closed_ (chan s') = true /\ queue_ (chan s') `suffix_of` queue_ (chan s).
Proof.
  induction 1 as [s|s s1 s2 (e & r & Hf) _ IH]; intros Hcl; [auto |].
  destruct (effect_closed _ _ _ (fire_effect _ _ _ _ Hf) Hcl) as (Hcl1 & _ & Hq).
  destruct (IH Hcl1) as [Hcl2 Hsuf]. split; [exact Hcl2 |].
  destruct Hq as [Hq|[v Hq]].
  - rewrite <- Hq. exact Hsuf.
  - rewrite Hq. apply suffix_cons_r. exact Hsuf.
Qed.

(** C2. Start from a channel built with any capacity and let any number of
    threads call [send_with_care], [receive_with_patience] and
    [close_gently], sleeping and waking in any order.  In every state
    reached the queue is no longer than that capacity.  From a state in
    which the channel is closed, every later state is closed, no event
    returns a successful send, each event leaves the queue as it is or takes
    its front item, the queue of every later state is a suffix of the
    present one, and a sender that sleeps in [send_with_care] gets [false]
    when it wakes, the queue untouched. *)
Theorem channel_stays_bounded_and_closed (capacity : Z) s :
  0 <= capacity ->
  rtc step (mkShared (construct capacity) [] 0) s ->
  (size (chan s) <= capacity /\ max_capacity_ (chan s) = capacity) /\
  (closed_ (chan s) = true ->
     (forall e r s', fire e s = Some (r, s') ->
        closed_ (chan s') = true /\ r <> SendReturned true /\
        (queue_ (chan s') = queue_ (chan s) \/
         exists v, queue_ (chan s) = v :: queue_ (chan s'))) /\
     (forall s', rtc step s s' ->
        closed_ (chan s') = true /\
        queue_ (chan s') `suffix_of` queue_ (chan s)) /\
     (forall i v, senders s !! i = Some v ->
        fire (WakeSender i) s =
          Some (SendReturned false,
                mkShared (chan s) (delete i (senders s)) (receivers s)))).
Proof.
  intros Hcap Hreach. split.
  - destruct (steps_bounded _ _ Hreach) as [Hb Hc]; [simpl; exact Hcap |].
    simpl in Hc. rewrite Hc in Hb. split; assumption.
  - intros Hcl. split; [|split].
    + intros e r s' Hf.
      apply (effect_closed _ _ _ (fire_effect _ _ _ _ Hf) Hcl).
    + intros s' Hs'. apply (steps_closed _ _ Hs' Hcl).
    + intros i v Hi. simpl. rewrite Hi.
      destruct (send_after_wait_cases v (chan s))
        as [[_ H]|[(Hc & _)|(Hc & _)]]; [|congruence..].
      rewrite H. reflexivity.
Qed.

Lemma lookups_shift {A : Type} (x : A) (l : list A) (n : nat) :
  (fun k => (x :: l) !! k) <$> seq 1 n = (fun k => l !! k) <$> seq 0 n.
Proof. rewrite <- fmap_S_seq, <- list_fmap_compose. reflexivity. Qed.

Lemma lookups_nil {A : Type} (m n : nat) :
  (fun k => @nil A !! k) <$> seq m n = replicate n None.
Proof.
  revert m. induction n as [|n IH]; intros m; simpl; [reflexivity |].
  rewrite IH. reflexivity.
Qed.

(** Reading a list at positions [0 .. length l + k - 1]: its items in
    order, then [k] times nothing. *)
Lemma lookups_past_the_end {A : Type} (l : list A) (k : nat) :
  (fun i => l !! i) <$> seq 0 (length l + k) = (Some <$> l) ++ replicate k None.
Proof.
  induction l as [|x l IH]; simpl.
  - apply lookups_nil.
  - rewrite lookups_shift, IH. reflexivity.
Qed.

Lemma receives_replicate (n : nat) : receives (replicate n (@Receive T)) = n.
Proof.
  unfold receives. induction n as [|n IH]; simpl; [reflexivity |].
  rewrite IH. reflexivity.
Qed.

(** On a closed channel no call sleeps: the receives read the queue from the
    front on, the sends are refused. *)
Lemma serve_all_closed (qs : list (request T)) : forall c,
  closed_ c = true ->
  exists rs c',
    serve_all qs c = Some (rs, c') /\
    received rs = (fun k => queue_ c !! k) <$> seq 0 (receives qs) /\
    sent rs = replicate (sends qs) false /\
    queue_ c' = drop (receives qs) (queue_ c) /\
    closed_ c' = true.
Proof.
  induction qs as [|q qs IH]; intros c Hcl.
  - exists [], c. repeat split; first [reflexivity | exact Hcl].
  - destruct q as [v| |].
    + destruct (send_with_care_cases v c) as [[_ H]|[(Hc & _)|(Hc & _)]];
        [|congruence..].
      destruct (IH c Hcl) as (rs & c' & Hrun & Hrecv & Hsent & Hq & Hcl').
      exists (SendReturned false :: rs), c'. simpl. rewrite H. simpl.
      rewrite Hrun. simpl. repeat split; try assumption.
      unfold sent in *. simpl. unfold sends in *. simpl. rewrite Hsent.
      reflexivity.
    + destruct (receive_cases c)
        as [(v & rest & Hq & H)|[(Hq & _ & H)|(_ & Hc & _)]]; [| |congruence].
      * destruct (IH (pop rest c) Hcl) as (rs & c' & Hrun & Hrecv & Hsent & Hq' & Hcl').
        exists (ReceiveReturned (Some v) :: rs), c'. simpl. rewrite H. simpl.
        rewrite Hrun. simpl. repeat split; try assumption.
        -- unfold received in *. simpl. unfold receives in *. simpl.
           rewrite Hrecv, Hq. simpl. rewrite lookups_shift. reflexivity.
        -- unfold receives in *. simpl. rewrite Hq', Hq. reflexivity.
      * destruct (IH c Hcl) as (rs & c' & Hrun & Hrecv & Hsent & Hq' & Hcl').
        exists (ReceiveReturned None :: rs), c'. simpl. rewrite H. simpl.
        rewrite Hrun. simpl. repeat split; try assumption.
        -- unfold received in *. simpl. unfold receives in *. simpl.
           rewrite Hrecv, Hq. simpl. rewrite !lookups_nil. reflexivity.
        -- unfold receives in *. simpl. rewrite Hq', Hq, !drop_nil. reflexivity.
    + destruct (IH (close_gently c) eq_refl)
        as (rs & c' & Hrun & Hrecv & Hsent & Hq' & Hcl').
      exists (CloseReturned :: rs), c'. simpl. rewrite Hrun. simpl.
      repeat split; assumption.
Qed.

(** As many receives as a closed channel holds items return those items in
    order; any number more return the empty result. *)
Lemma drain_closed c (k : nat) :
  closed_ c = true ->
  exists rs c',
    serve_all (replicate (length (queue_ c) + k) Receive) c = Some (rs, c') /\
    received rs = (Some <$> queue_ c) ++ replicate k None /\
    queue_ c' = [].
Proof.
  intros Hcl.
  destruct (serve_all_closed (replicate (length (queue_ c) + k) Receive) c Hcl)
    as (rs & c' & Hrun & Hrecv & _ & Hq & _).
  exists rs, c'. rewrite receives_replicate in *.
  split; [exact Hrun |]. split.
  - rewrite Hrecv. apply lookups_past_the_end.
  - rewrite Hq. apply drop_ge. lia.
Qed.


(** Sends into an open channel with room for all of them succeed at once. *)
Lemma serve_all_sends (vs : list T) : forall c,
  closed_ c = false ->
  size c + Z.of_nat (length vs) <= max_capacity_ c ->
  serve_all (Send <$> vs) c =
    Some (replicate (length vs) (SendReturned true),
          {| queue_ := queue_ c ++ vs;
             closed_ := false;
             max_capacity_ := max_capacity_ c |}).
Proof.
  induction vs as [|v vs IH]; intros c Hc Hroom; simpl.
  - rewrite app_nil_r. destruct c; simpl in *. subst. reflexivity.
  - destruct (send_with_care_cases v c) as [[Hc' _]|[(_ & _ & H)|(_ & Hfull & _)]].
    + congruence.
    + rewrite H. simpl. rewrite IH.
      * simpl. rewrite <- app_assoc. reflexivity.
      * exact Hc.
      * rewrite size_emplace. simpl in *. lia.
    + simpl in Hroom. lia.
Qed.

Lemma serve_all_app (qs1 qs2 : list (request T)) : forall c,
  serve_all (qs1 ++ qs2) c =
    '(rs1, c1) ← serve_all qs1 c;
    '(rs2, c2) ← serve_all qs2 c1;
    Some (rs1 ++ rs2, c2).
Proof.
  induction qs1 as [|q qs1 IH]; intros c; simpl.
  - destruct (serve_all qs2 c) as [[rs2 c2]|]; reflexivity.
  - destruct (serve q c) as [[r c1]|]; simpl; [|reflexivity].
    rewrite IH. destruct (serve_all qs1 c1) as [[rs1 c1']|]; simpl; [|reflexivity].
    destruct (serve_all qs2 c1') as [[rs2 c2]|]; reflexivity.
Qed.

Lemma received_of_sends (n : nat) (ok : bool) :
  received (replicate n (@SendReturned T ok)) = [].
Proof. induction n as [|n IH]; [reflexivity | exact IH]. Qed.

(** Enqueue order is receive order: items sent into a fresh channel that
    has room for them, then a close, then receives. *)
Lemma sent_closed_received_in_order (capacity : Z) (vs : list T) (k : nat) :
  Z.of_nat (length vs) <= capacity ->
  exists rs c',
    serve_all ((Send <$> vs) ++ Close :: replicate (length vs + k) Receive)
      (construct capacity) = Some (rs, c') /\
    received rs = (Some <$> vs) ++ replicate k None.
Proof.
  intros Hroom.
  destruct (drain_closed
              {| queue_ := vs; closed_ := true; max_capacity_ := capacity |} k eq_refl)
    as (rs & c' & Hrun & Hrecv & _).
  simpl in Hrun, Hrecv.
  exists (replicate (length vs) (SendReturned true) ++ CloseReturned :: rs), c'.
  rewrite serve_all_app, (serve_all_sends vs (construct capacity) eq_refl)
    by (unfold size; simpl; lia).
  simpl. unfold close_gently. simpl. rewrite Hrun. simpl.
  split; [reflexivity |].
  rewrite <- Hrecv. unfold received. rewrite omap_app.
  change (omap ?f (replicate ?n (SendReturned true)))
    with (received (replicate n (@SendReturned T true))).
  rewrite received_of_sends. reflexivity.
Qed.

(** A run whose next call sleeps does not come back. *)
Lemma serve_all_then_sleep (qs : list (request T)) q : forall c rs c1,
  serve_all qs c = Some (rs, c1) ->
  serve q c1 = None ->
  serve_all (qs ++ [q]) c = None.
Proof.
  induction qs as [|q0 qs IH]; intros c rs c1 Hrun Hq; simpl in *.
  - simplify_eq. rewrite Hq. reflexivity.
  - destruct (serve q0 c) as [[r0 c0]|]; simpl in *; [|discriminate].
    destruct (serve_all qs c0) as [[rs0 c2]|] eqn:E; simpl in *; [|discriminate].
    simplify_eq. rewrite (IH c0 rs0 c1 E Hq). reflexivity.
Qed.

(** C10. The channel built without a capacity has capacity 100: on a fresh
    one the first [k <= 100] sends all return [true] at once and are queued
    in order, and with 100 items queued the next send sleeps; in general a
    send on it, while it is open, goes through at once exactly when fewer
    than 100 items are queued. *)
Theorem default_channel_holds_100 (vs : list T) (v : T) :
  length vs = 100%nat ->
  max_capacity_ (@construct_default T) = 100 /\
  (forall k : nat, (k <= 100)%nat ->
     serve_all (Send <$> take k vs) construct_default =
       Some (replicate k (SendReturned true),
             {| queue_ := take k vs; closed_ := false; max_capacity_ := 100 |})) /\
  send_with_care v {| queue_ := vs; closed_ := false; max_capacity_ := 100 |} =
    (None, {| queue_ := vs; closed_ := false; max_capacity_ := 100 |}) /\
  serve_all (Send <$> vs ++ [v]) construct_default = None /\
  (forall c, max_capacity_ c = 100 -> closed_ c = false ->
     (size c < 100 -> send_with_care v c = (Some true, emplace v c)) /\
     (100 <= size c -> send_with_care v c = (None, c))).
Proof.
  intros Hlen. split; [reflexivity |]. split; [|split; [|split]].
  - intros k Hk.
    assert (Hl : length (take k vs) = k) by (rewrite length_take; lia).
    rewrite (serve_all_sends (take k vs) construct_default).
    + rewrite Hl. reflexivity.
    + reflexivity.
    + unfold size. simpl. lia.
  - destruct (send_with_care_cases v
                {| queue_ := vs; closed_ := false; max_capacity_ := 100 |})
      as [[Hc _]|[(_ & Hs & _)|(_ & _ & H)]].
    + discriminate.
    + unfold size in Hs. simpl in Hs. lia.
    + exact H.
  - rewrite fmap_app.
    apply (serve_all_then_sleep _ _ _ _ _
             (serve_all_sends vs construct_default eq_refl
                ltac:(unfold size; simpl; lia))).
    simpl.
    destruct (send_with_care_cases v
                {| queue_ := vs; closed_ := false; max_capacity_ := 100 |})
      as [[Hc _]|[(_ & Hs & _)|(_ & _ & H)]].
    + discriminate.
    + unfold size in Hs. simpl in Hs. lia.
    + rewrite H. reflexivity.
  - intros c Hcap Hc.
    destruct (send_with_care_cases v c) as [[Hc' _]|[(_ & Hs & H)|(_ & Hs & H)]].
    + congruence.
    + split; [intros _; exact H | lia].
    + split; [lia | intros _; exact H].
Qed.

End ChannelFacts.

Section ChannelWitnesses.
Import Channel.

Lemma channel_bounded_witness :
  let s := mkShared {| queue_ := [7]; closed_ := true; max_capacity_ := 1 |} [8] 0 in
  size (chan s) <= 1 /\
  fire (WakeSender 0) s =
    Some (SendReturned false, mkShared (chan s) [] 0).
Proof.
  assert (Hreach :
    rtc step (mkShared (construct 1) [] 0)
        (mkShared {| queue_ := [7]; closed_ := true; max_capacity_ := 1 |} [8] 0)).
  { eapply rtc_l; [exists (CallSend 7); eexists; reflexivity |].
    eapply rtc_l; [exists (CallSend 8); eexists; reflexivity |].
    eapply rtc_l; [exists CallClose; eexists; reflexivity |].
    apply rtc_refl. }
  destruct (channel_stays_bounded_and_closed 1 _ ltac:(lia) Hreach)
    as [[Hsize _] Hclosed].
  split; [exact Hsize |].
  destruct (Hclosed eq_refl) as (_ & _ & Hwake).
  apply (Hwake 0%nat 8). reflexivity.
Defined.

Lemma default_channel_witness :
  max_capacity_ (@construct_default Z) = 100 /\
  send_with_care 100 {| queue_ := seqZ 0 100; closed_ := false; max_capacity_ := 100 |}
    = (None, {| queue_ := seqZ 0 100; closed_ := false; max_capacity_ := 100 |}).
Proof.
  destruct (default_channel_holds_100 (seqZ 0 100) 100 eq_refl)
    as (Hcap & _ & Hblock & _).
  split; [exact Hcap | exact Hblock].
Defined.

End ChannelWitnesses.

(** ** GentleMemoryPool *)

Section PoolFacts.
Import MemoryPool.
Variable slab_base : nat -> Z.
Implicit Types (p : GentleMemoryPool) (c : client) (ptr : Z).

Lemma with_free_same p : with_free (free_blocks_ p) p = p.
Proof. destruct p. reflexivity. Qed.

Lemma with_free_twice free free' p :
  with_free free (with_free free' p) = with_free free p.
Proof. reflexivity. Qed.

(** [back()] and [pop_back()] undo a [push_back]. *)
Lemma last_removelast {A : Type} (l : list A) (x : A) :
  last l = Some x -> l = removelast l ++ [x].
Proof.
  intros Hl. destruct (last_Some l x) as [[l' Hl'] _]; [exact Hl |].
  subst l. rewrite removelast_last. reflexivity.
Qed.

(** C9. Whatever the pool, [deallocate_gently ptr] directly followed by
    [allocate_gently] returns [ptr], and the pool is as it was before the
    pair: the free list is a stack. *)
Theorem deallocate_then_allocate_returns_it p ptr :
  allocate_gently slab_base (deallocate_gently ptr p) = Some (ptr, p) /\
  free_blocks_ (deallocate_gently ptr p) = free_blocks_ p ++ [ptr].
Proof.
  split; [|reflexivity].
  unfold allocate_gently, deallocate_gently. simpl.
  rewrite bool_decide_eq_false_2 by (intros H; destruct (free_blocks_ p); discriminate).
  simpl. rewrite last_snoc, removelast_last.
  rewrite with_free_twice, with_free_same. reflexivity.
Qed.

(** [allocate_gently] by cases on the free list. *)
Lemma allocate_gently_pops p ptr p' :
  allocate_gently slab_base p = Some (ptr, p') ->
  exists p1,
    p1 = (if bool_decide (free_blocks_ p = [])
          then allocate_new_pool slab_base p else p) /\
    free_blocks_ p1 = free_blocks_ p' ++ [ptr] /\
    pools_ p' = pools_ p1 /\
    block_size_ p' = block_size_ p /\
    blocks_per_pool_ p' = blocks_per_pool_ p.
Proof.
  unfold allocate_gently. intros H. eexists. split; [reflexivity |].
  destruct (last (free_blocks_ _)) as [x|] eqn:Hl; [|discriminate].
  simplify_eq. simpl. split; [apply last_removelast, Hl |].
  case_bool_decide; auto.
Qed.

Lemma allocate_gently_returns p :
  (free_blocks_ p <> [] \/ 0 < blocks_per_pool_ p) ->
  exists ptr p', allocate_gently slab_base p = Some (ptr, p').
Proof.
  intros Hp. unfold allocate_gently.
  set (p1 := if bool_decide (free_blocks_ p = []) then allocate_new_pool slab_base p else p).
  assert (Hne : free_blocks_ p1 <> []).
  { unfold p1. case_bool_decide as Hf; [|exact Hf].
    destruct Hp as [Hp|Hp]; [contradiction |].
    simpl. rewrite Hf. simpl. unfold slab_blocks.
    destruct (Z.to_nat (blocks_per_pool_ p)) eqn:Hn; [lia | discriminate]. }
  destruct (last (free_blocks_ p1)) as [x|] eqn:Hl; [eauto |].
  apply last_None in Hl. contradiction.
Qed.

Section Sized.
Variables (block_size blocks : Z) (n : nat).
Hypothesis block_size_pos : 0 < block_size.
Hypothesis blocks_pos : 0 < blocks.
Hypothesis slab_fits : block_size * blocks <= SIZE_MAX.
Hypothesis heap : heap_ok slab_base block_size blocks n.

Lemma slab_bytes_exact : slab_bytes block_size blocks = block_size * blocks.
Proof.
  unfold slab_bytes, wrap. apply Z.mod_small. unfold SIZE_MAX in slab_fits. nia.
Qed.

Lemma block_address_exact k j :
  (k < n)%nat -> 0 <= j < blocks ->
  block_address (slab_base k) block_size j = slab_base k + j * block_size.
Proof.
  intros Hk Hj. destruct (heap k Hk) as (Hlo & Hhi & _).
  rewrite slab_bytes_exact in Hhi. unfold SIZE_MAX in slab_fits.
  unfold block_address, wrap.
  rewrite (Z.mod_small (j * block_size)) by nia.
  apply Z.mod_small. nia.
Qed.

Lemma in_slab_blocks k a :
  (k < n)%nat ->
  a ∈ slab_blocks (slab_base k) block_size blocks <-> exists j, block_of slab_base block_size blocks k j a.
Proof.
  intros Hk. unfold slab_blocks, block_of.
  change (map ?f ?l) with (f <$> l). rewrite list_elem_of_fmap. split.
  - intros (i & -> & Hi). apply elem_of_seq in Hi.
    exists (Z.of_nat i). split; [lia |]. apply block_address_exact; [exact Hk | lia].
  - intros (j & Hj & ->). exists (Z.to_nat j). split.
    + rewrite Z2Nat.id by lia. symmetry. apply block_address_exact; [exact Hk | lia].
    + apply elem_of_seq. lia.
Qed.

(** A block address determines its slab and its index. *)
Lemma block_of_inj k j k' j' a :
  (k < n)%nat -> (k' < n)%nat ->
  block_of slab_base block_size blocks k j a -> block_of slab_base block_size blocks k' j' a -> k = k' /\ j = j'.
Proof.
  intros Hk Hk' [Hj ->] [Hj' Heq].
  destruct (decide (k = k')) as [->|Hne].
  - split; [reflexivity | nia].
  - exfalso. destruct (heap k Hk) as (_ & _ & Hsep).
    specialize (Hsep k' Hk' Hne). rewrite slab_bytes_exact in Hsep. nia.
Qed.

Lemma slab_blocks_NoDup k :
  (k < n)%nat -> NoDup (slab_blocks (slab_base k) block_size blocks).
Proof.
  intros Hk. unfold slab_blocks. change (map ?f ?l) with (f <$> l).
  apply NoDup_fmap_2_strong; [|apply NoDup_seq].
  intros i i' Hi Hi' Heq. apply elem_of_seq in Hi, Hi'.
  rewrite !block_address_exact in Heq by (first [exact Hk | lia]). nia.
Qed.

Lemma fresh_client_consistent :
  (0 < n)%nat -> consistent slab_base block_size blocks
    (fresh_client slab_base block_size blocks).
Proof.
  intros Hn. unfold consistent. simpl. rewrite app_nil_r.
  repeat split.
  - apply slab_blocks_NoDup. exact Hn.
  - intros a Ha. apply in_slab_blocks in Ha; [|exact Hn].
    destruct Ha as [j Hj]. exists 0%nat, j. split; [lia | exact Hj].
Qed.

Lemma give_back_perm ptr held :
  ptr ∈ held -> held ≡ₚ ptr :: give_back ptr held.
Proof.
  induction held as [|q held IH]; intros Hin; [inversion Hin |].
  simpl. case_bool_decide as Hq.
  - subst. reflexivity.
  - apply elem_of_cons in Hin as [Heq|Hin]; [congruence |].
    rewrite (IH Hin) at 1. apply Permutation_swap.
Qed.

Lemma perform_consistent op c c1 :
  consistent slab_base block_size blocks c ->
  permitted op c ->
  perform slab_base op c = Some c1 ->
  (length (pools_ (pool c1)) <= n)%nat ->
  consistent slab_base block_size blocks c1.
Proof.
  intros (Hbs & Hbpp & Hnd & Hin) Hperm Hop Hlen.
  destruct op as [|ptr]; simpl in Hop, Hperm.
  - destruct (allocate_gently slab_base (pool c)) as [[ptr p']|] eqn:Ha;
      [|discriminate].
    simpl in Hop. injection Hop as <-. simpl in Hlen |- *.
    destruct (allocate_gently_pops _ _ _ Ha) as (p1 & Hp1 & Hfree & Hpools & Hbs' & Hbpp').
    assert (Hperm' : free_blocks_ p' ++ ptr :: outstanding c ≡ₚ
                     free_blocks_ p1 ++ outstanding c)
      by (rewrite Hfree, <- app_assoc; reflexivity).
    assert (H1 : NoDup (free_blocks_ p1 ++ outstanding c) /\
                 forall a, a ∈ free_blocks_ p1 ++ outstanding c ->
                   exists k j, (k < length (pools_ p1))%nat /\ block_of slab_base block_size blocks k j a).
    { rewrite Hpools in Hlen. revert Hp1 Hlen.
      case_bool_decide as Hempty; intros -> Hlen; [|split; assumption].
      simpl in Hlen |- *. rewrite length_app in Hlen |- *. simpl in Hlen |- *.
      rewrite Hempty in Hnd, Hin |- *. simpl in Hnd, Hin |- *.
      rewrite Hbs, Hbpp.
      assert (Hk : (length (pools_ (pool c)) < n)%nat) by lia.
      split.
      - apply NoDup_app. split; [apply slab_blocks_NoDup, Hk |]. split; [|exact Hnd].
        intros a Ha1 Ha2. apply in_slab_blocks in Ha1 as [j Hj]; [|exact Hk].
        destruct (Hin a Ha2) as (k' & j' & Hk' & Hj').
        assert (Hk'n : (k' < n)%nat) by lia.
        destruct (block_of_inj _ _ _ _ _ Hk Hk'n Hj Hj') as [Heq _]. lia.
      - intros a Ha1. apply elem_of_app in Ha1 as [Ha1|Ha1].
        + apply in_slab_blocks in Ha1 as [j Hj]; [|exact Hk].
          exists (length (pools_ (pool c))), j. split; [lia | exact Hj].
        + destruct (Hin a Ha1) as (k' & j' & Hk' & Hj').
          exists k', j'. split; [lia | exact Hj']. }
    destruct H1 as [Hnd1 Hin1].
    unfold consistent. simpl. rewrite Hbs', Hbpp', Hpools.
    split; [exact Hbs |]. split; [exact Hbpp |]. split.
    + rewrite Hperm'. exact Hnd1.
    + intros a Ha1. rewrite Hperm' in Ha1. apply Hin1, Ha1.
  - injection Hop as <-. unfold consistent. simpl.
    assert (Hperm' : (free_blocks_ (pool c) ++ [ptr]) ++ give_back ptr (outstanding c)
                     ≡ₚ free_blocks_ (pool c) ++ outstanding c).
    { rewrite <- app_assoc. apply Permutation_app_head. simpl.
      symmetry. apply give_back_perm, Hperm. }
    split; [exact Hbs |]. split; [exact Hbpp |]. split.
    + rewrite Hperm'. exact Hnd.
    + intros a Ha1. rewrite Hperm' in Ha1. apply Hin, Ha1.
Qed.

Lemma perform_grows op c c1 :
  perform slab_base op c = Some c1 ->
  (length (pools_ (pool c)) <= length (pools_ (pool c1)))%nat.
Proof.
  destruct op as [|ptr]; simpl; intros Hop.
  - destruct (allocate_gently slab_base (pool c)) as [[ptr p']|] eqn:Ha;
      [|discriminate].
    simpl in Hop. simplify_eq. simpl.
    destruct (allocate_gently_pops _ _ _ Ha) as (p1 & -> & _ & Hpools & _).
    rewrite Hpools.
    case_bool_decide; simpl; [rewrite length_app; simpl |]; lia.
  - simplify_eq. simpl. lia.
Qed.

Lemma serves_grows c ops c' :
  serves slab_base c ops c' ->
  (length (pools_ (pool c)) <= length (pools_ (pool c')))%nat.
Proof.
  induction 1 as [c|c op c1 ops c2 _ Hop _ IH]; [lia |].
  pose proof (perform_grows _ _ _ Hop). lia.
Qed.

Lemma serves_consistent c ops c' :
  serves slab_base c ops c' ->
  consistent slab_base block_size blocks c ->
  (length (pools_ (pool c')) <= n)%nat ->
  consistent slab_base block_size blocks c'.
Proof.
  induction 1 as [c|c op c1 ops c2 Hperm Hop Hrest IH]; intros Hc Hlen; [exact Hc |].
  apply IH; [|exact Hlen].
  apply (perform_consistent op c c1 Hc Hperm Hop).
  pose proof (serves_grows _ _ _ Hrest). lia.
Qed.

End Sized.

(** C8, for pools with blocks of at least one byte, at least one block per
    slab, and a slab size that fits [size_t], on a heap whose first [n]
    arrays are disjoint and while the pool owns fewer than [n] slabs.  After
    any calls in which [deallocate_gently] was only given addresses the
    client held, [allocate_gently] returns: it takes the last address of the
    free list, which is first filled with the [blocks_per_pool_] addresses
    of a new slab when it is empty, and the address it returns is none of
    those the client still holds, which are pairwise distinct themselves. *)
Theorem allocated_addresses_are_distinct
    (block_size blocks : Z) (n : nat) (ops : list pool_op) c :
  0 < block_size ->
  0 < blocks ->
  block_size * blocks <= SIZE_MAX ->
  heap_ok slab_base block_size blocks n ->
  serves slab_base (fresh_client slab_base block_size blocks) ops c ->
  (length (pools_ (pool c)) < n)%nat ->
  exists ptr p',
    allocate_gently slab_base (pool c) = Some (ptr, p') /\
    (if bool_decide (free_blocks_ (pool c) = [])
     then
       free_blocks_ p' ++ [ptr] =
         slab_blocks (slab_base (length (pools_ (pool c)))) block_size blocks /\
       length (free_blocks_ p' ++ [ptr]) = Z.to_nat blocks /\
       length (pools_ p') = S (length (pools_ (pool c)))
     else
       free_blocks_ p' ++ [ptr] = free_blocks_ (pool c) /\
       pools_ p' = pools_ (pool c)) /\
    (ptr ∉ outstanding c) /\
    NoDup (ptr :: outstanding c).
Proof.
  intros Hbs Hbpp Hfit Hheap Hrun Hlen.
  assert (Hc : consistent slab_base block_size blocks c).
  { apply (serves_consistent block_size blocks n Hbs Hbpp Hfit Hheap _ ops c Hrun).
    - apply (fresh_client_consistent block_size blocks n Hbs Hbpp Hfit Hheap). lia.
    - lia. }
  destruct (allocate_gently_returns (pool c)) as (ptr & p' & Ha).
  { right. destruct Hc as (_ & -> & _). exact Hbpp. }
  exists ptr, p'. split; [exact Ha |].
  destruct (allocate_gently_pops _ _ _ Ha) as (p1 & Hp1 & Hfree & Hpools & _).
  assert (Hlen' : (length (pools_ p') <= n)%nat).
  { rewrite Hpools, Hp1. case_bool_decide; simpl; [rewrite length_app; simpl |]; lia. }
  assert (Hc1 : consistent slab_base block_size blocks
                  {| pool := p'; outstanding := ptr :: outstanding c |}).
  { apply (perform_consistent block_size blocks n Hbs Hbpp Hfit Hheap Allocate c).
    - exact Hc.
    - exact I.
    - simpl. rewrite Ha. reflexivity.
    - exact Hlen'. }
  destruct Hc1 as (_ & _ & Hnd & _). simpl in Hnd.
  apply NoDup_app in Hnd as (_ & _ & Hnd).
  split; [|split; [apply NoDup_cons_1_1, Hnd | exact Hnd]].
  rewrite <- Hfree, Hpools, Hp1.
  destruct Hc as (Hbs' & Hbpp' & _).
  case_bool_decide as Hempty; [|split; reflexivity].
  simpl. rewrite Hempty, Hbs', Hbpp'. simpl.
  split; [reflexivity |]. split.
  - unfold slab_blocks. rewrite length_map, length_seq. reflexivity.
  - rewrite length_app. simpl. lia.
Qed.

End PoolFacts.

Section PoolExamples.
Import MemoryPool.

Lemma bump_heap_ok : heap_ok bump_heap 16 4 3.
Proof.
  intros k Hk. change (slab_bytes 16 4) with 64. unfold bump_heap.
  split; [lia |]. split; [lia |]. intros k' Hk' Hne. lia.
Qed.

Lemma allocated_addresses_witness :
  let c := {| pool := {| pools_ := [4096];
                         free_blocks_ := [4096; 4112; 4144];
                         block_size_ := 16;
                         blocks_per_pool_ := 4 |};
              outstanding := [4128] |} in
  serves bump_heap (fresh_client bump_heap 16 4)
    [Allocate; Allocate; Deallocate 4144] c /\
  exists ptr p',
    allocate_gently bump_heap (pool c) = Some (ptr, p') /\
    ptr ∉ outstanding c.
Proof.
  assert (Hrun :
    serves bump_heap (fresh_client bump_heap 16 4)
      [Allocate; Allocate; Deallocate 4144]
      {| pool := {| pools_ := [4096];
                    free_blocks_ := [4096; 4112; 4144];
                    block_size_ := 16;
                    blocks_per_pool_ := 4 |};
         outstanding := [4128] |}).
  { eapply serves_cons; [exact I | reflexivity |].
    eapply serves_cons; [exact I | reflexivity |].
    eapply serves_cons; [| reflexivity | apply serves_nil].
    simpl. apply elem_of_cons. right. apply elem_of_cons. left. reflexivity. }
  split; [exact Hrun |].
  destruct (allocated_addresses_are_distinct bump_heap 16 4 3 _ _
              ltac:(lia) ltac:(lia) ltac:(unfold SIZE_MAX; lia)
              bump_heap_ok Hrun ltac:(simpl; lia))
    as (ptr & p' & Ha & _ & Hout & _).
  exists ptr, p'. split; [exact Ha | exact Hout].
Defined.

(** C8 as stated fails for a pool of zero-byte blocks: the two blocks of its
    slab have the same address, the client holds it after one
    [allocate_gently], and the next [allocate_gently] returns it again. *)
Lemma zero_sized_blocks_share_an_address :
  let c := {| pool := {| pools_ := [4096];
                         free_blocks_ := [4096];
                         block_size_ := 0;
                         blocks_per_pool_ := 2 |};
              outstanding := [4096] |} in
  serves bump_heap (fresh_client bump_heap 0 2) [Allocate] c /\
  allocate_gently bump_heap (pool c) = Some (4096, with_free [] (pool c)) /\
  4096 ∈ outstanding c.
Proof.
  split; [|split].
  - eapply serves_cons; [exact I | reflexivity | apply serves_nil].
  - reflexivity.
  - simpl. apply elem_of_cons. left. reflexivity.
Qed.

(** With no block per slab a new slab leaves the free list empty, and
    [allocate_gently] reads the back of an empty vector. *)
Lemma no_blocks_nothing_to_pop (heap : nat -> Z) (block_size : Z) :
  allocate_gently heap (construct heap block_size 0) = None.
Proof. reflexivity. Qed.

(** When [block_size_ * blocks_per_pool_] wraps around, the array asked for
    is smaller than the blocks handed out: here it has no byte at all, and
    the two block addresses are [2^63] apart. *)
Lemma wrapped_slab_is_too_small :
  slab_bytes (2 ^ 63) 2 = 0 /\
  slab_blocks 4096 (2 ^ 63) 2 = [4096; 4096 + 2 ^ 63].
Proof. split; reflexivity. Qed.

End PoolExamples.

(** * Further properties of the runtime *)

(** ** GentleOwnership: call sequences *)

Section OwnershipSequences.
Import Ownership.
Context {T R : Type}.
Implicit Types (c : GentleOwnership T) (op : cell_op T R) (v : T).

Lemma nothing_moves_out_of_empty (ops : list (cell_op T R)) : forall c,
  data_ c = None -> List.filter moved (calls ops c).1 = [].
Proof.
  induction ops as [|op rest IH]; intros c Hc; simpl; [reflexivity |].
  destruct (call_on_empty op c Hc) as [_ Hd]. specialize (IH _ Hd).
  assert (Hr : moved (call op c).1 = false).
  { destruct op; simpl;
      unfold borrow_gently, borrow_mutably, transfer_with_care;
      rewrite ?Hc; reflexivity. }
  destruct (call op c) as [r c1]. simpl in *.
  destruct (calls rest c1) as [rs c2]. simpl in *.
  rewrite Hr. exact IH.
Qed.

Lemma moved_call_empties op c :
  moved (call op c).1 = true -> data_ (call op c).2 = None.
Proof.
  destruct op as [f|f|o| |]; simpl;
    unfold borrow_gently, borrow_mutably, transfer_with_care;
    destruct (data_ c) as [v|] eqn:Hc; simpl;
    try destruct (f v) as [r v']; simpl; congruence.
Qed.

(** X1. Whatever calls are made on a cell, at most one of them gets the
    value: no call sequence contains two successful transfers. *)
Theorem value_is_handed_out_at_most_once (ops : list (cell_op T R)) : forall c,
  (length (List.filter moved (calls ops c).1) <= 1)%nat.
Proof.
  induction ops as [|op rest IH]; intros c; simpl; [lia |].
  pose proof (moved_call_empties op c) as Hm.
  destruct (call op c) as [r c1]. simpl in Hm.
  pose proof (IH c1) as IH1.
  pose proof (nothing_moves_out_of_empty rest c1) as Hnone.
  destruct (calls rest c1) as [rs c2]. simpl in *.
  destruct (moved r).
  - rewrite (Hnone (Hm eq_refl)). simpl. lia.
  - exact IH1.
Qed.

Lemma calls_cons op rest c :
  calls (op :: rest) c =
    ((call op c).1 :: (calls rest (call op c).2).1, (calls rest (call op c).2).2).
Proof.
  simpl. destruct (call op c) as [r c1]. simpl.
  destruct (calls rest c1) as [rs c2]. reflexivity.
Qed.

Lemma owner_of_empty_cell_stays (ops : list (cell_op T R)) : forall c,
  data_ c = None ->
  current_owner (calls ops c).2 = owner_name_ c /\
  is_available (calls ops c).2 = false.
Proof.
  induction ops as [|op rest IH]; intros c Hc.
  - simpl. unfold is_available. rewrite Hc. split; reflexivity.
  - rewrite calls_cons. simpl.
    destruct (call_on_empty op c Hc) as [_ Hd].
    destruct (IH _ Hd) as [Ho Ha]. rewrite Ho, Ha. split; [|reflexivity].
    destruct op; simpl;
      unfold borrow_gently, borrow_mutably, transfer_with_care;
      rewrite ?Hc; reflexivity.
Qed.

(** X2. After any call sequence the owner label is the one given by the
    first transfer, provided the cell then held its value; every other
    transfer is refused before it touches the label.  The cell is available
    exactly when it held a value at the start and no transfer was called. *)
Theorem owner_is_set_by_first_transfer_only (ops : list (cell_op T R)) : forall c,
  current_owner (calls ops c).2 =
    match data_ c, first_transfer ops with
    | Some _, Some new_owner => new_owner
    | _, _ => owner_name_ c
    end /\
  is_available (calls ops c).2 =
    match data_ c, first_transfer ops with
    | Some _, None => true
    | _, _ => false
    end.
Proof.
  induction ops as [|op rest IH]; intros c.
  - simpl. unfold is_available, current_owner.
    destruct (data_ c); split; reflexivity.
  - rewrite calls_cons. cbn [fst snd].
    destruct (data_ c) as [v|] eqn:Hc.
    + destruct (IH (call op c).2) as [Ho Ha]. rewrite Ho, Ha. clear Ho Ha IH.
      destruct op as [f|f|o| |]; simpl;
        unfold borrow_gently, borrow_mutably, transfer_with_care; rewrite Hc;
        try destruct (f v) as [r v']; simpl; split; reflexivity.
    + destruct (call_on_empty op c Hc) as [_ Hd].
      destruct (owner_of_empty_cell_stays rest _ Hd) as [Ho Ha].
      rewrite Ho, Ha. split; [|reflexivity].
      destruct op; simpl;
        unfold borrow_gently, borrow_mutably, transfer_with_care;
        rewrite ?Hc; reflexivity.
Qed.

(** X3. While the cell holds its value, borrows are serialised in call
    order: after a sequence without transfer the cell holds the value that
    the callbacks of its borrows, shared or exclusive, leave when run one
    after the other, the owner is unchanged, and a transfer made then hands
    out exactly that value. *)
Theorem borrows_compose_in_call_order (ops : list (cell_op T R)) : forall c v,
  data_ c = Some v ->
  first_transfer ops = None ->
  data_ (calls ops c).2 = Some (borrowed_through ops v) /\
  owner_name_ (calls ops c).2 = owner_name_ c /\
  forall new_owner,
    (transfer_with_care new_owner (calls ops c).2).1 = inr (borrowed_through ops v).
Proof.
  induction ops as [|op rest IH]; intros c v Hc Hnone.
  - simpl. split; [exact Hc |]. split; [reflexivity |].
    intros o. unfold transfer_with_care. rewrite Hc. reflexivity.
  - rewrite calls_cons. cbn [fst snd].
    destruct op as [f|f|o| |]; simpl in Hnone |- *; try discriminate.
    + unfold borrow_gently. rewrite Hc. destruct (f v) as [r v'] eqn:Hf. simpl.
      destruct (IH {| data_ := Some v'; owner_name_ := owner_name_ c |} v' eq_refl Hnone)
        as (Hd & Ho & Ht).
      split; [exact Hd |]. split; [exact Ho | exact Ht].
    + unfold borrow_mutably. rewrite Hc. destruct (f v) as [r v'] eqn:Hf. simpl.
      destruct (IH {| data_ := Some v'; owner_name_ := owner_name_ c |} v' eq_refl Hnone)
        as (Hd & Ho & Ht).
      split; [exact Hd |]. split; [exact Ho | exact Ht].
    + apply IH; assumption.
    + apply IH; assumption.
Qed.

End OwnershipSequences.

Section OwnershipSequenceWitnesses.
Import Ownership.

Lemma borrows_compose_witness :
  let ops := [BorrowExclusive (fun x => (x, x + 1));
              BorrowShared peek;
              BorrowExclusive (fun x => (x, 2 * x))] in
  data_ (calls ops cell_A).2 = Some 2 /\
  (transfer_with_care "B" (calls ops cell_A).2).1 = inr 2.
Proof.
  destruct (borrows_compose_in_call_order
              [BorrowExclusive (fun x => (x, x + 1));
               BorrowShared peek;
               BorrowExclusive (fun x => (x, 2 * x))]
              cell_A 0 eq_refl eq_refl) as (Hd & _ & Ht).
  split; [exact Hd | exact (Ht "B")].
Defined.

End OwnershipSequenceWitnesses.

(** ** GentleTask: moving *)

Section TaskFacts.
Import Task.
Implicit Types (t a b : GentleTask) (objs : list GentleTask).

Lemma held_by_cons a objs : held_by (a :: objs) = held a ++ held_by objs.
Proof. reflexivity. Qed.

(** Replacing one object: what it held leaves, what the new one holds
    comes. *)
Lemma held_by_insert objs : forall (i : nat) a x,
  objs !! i = Some a ->
  held_by (<[i := x]> objs) ++ held a ≡ₚ held_by objs ++ held x.
Proof.
  induction objs as [|o objs IH]; intros [|i] a x Hi; simpl in Hi; try discriminate.
  - simplify_eq. simpl. rewrite !held_by_cons. solve_Permutation.
  - simpl. rewrite !held_by_cons, <- !app_assoc.
    rewrite (IH i a x Hi). reflexivity.
Qed.

Section Moves.
Variable moved_from : string -> string.

(** X5. Moving a task moves the responsibility for its coroutine and
    neither copies nor loses one.  After the move constructor the new
    object holds the handle and the source holds none, is done and ignores
    [resume_gently].  After a move assignment between two different objects
    the target holds the source's handle, name and creation time, the
    source holds none, the handle the target held before was given to
    [destroy()], all other objects are untouched, and the handles held
    afterwards together with the destroyed one are those held before.
    Assigning an object to itself changes nothing. *)
Theorem moves_hand_over_the_coroutine (this other : nat) objs a b :
  objs !! this = Some a ->
  objs !! other = Some b ->
  this <> other ->
  (held (move_construct moved_from b).1 = held b /\
   held (move_construct moved_from b).2 = [] /\
   is_done (move_construct moved_from b).2 = true /\
   resume_gently (move_construct moved_from b).2 =
     ((move_construct moved_from b).2, [], None)) /\
  (exists objs',
     move_assign moved_from this other objs = (objs', held a) /\
     objs' !! this = Some (move_construct moved_from b).1 /\
     objs' !! other = Some (emptied moved_from b) /\
     (forall k, k <> this -> k <> other -> objs' !! k = objs !! k) /\
     length objs' = length objs /\
     held_by objs' ++ held a ≡ₚ held_by objs) /\
  move_assign moved_from this this objs = (objs, []).
Proof.
  intros Ha Hb Hne. split; [|split].
  - repeat split; reflexivity.
  - pose proof (lookup_lt_Some _ _ _ Ha) as Hlt.
    pose proof (lookup_lt_Some _ _ _ Hb) as Hlo.
    eexists. split.
    { unfold move_assign. rewrite bool_decide_eq_false_2 by exact Hne.
      rewrite Ha, Hb. reflexivity. }
    split; [|split; [|split; [|split]]].
    + rewrite list_lookup_insert_ne by congruence.
      apply list_lookup_insert_eq. exact Hlt.
    + apply list_lookup_insert_eq. rewrite length_insert. exact Hlo.
    + intros k Hk1 Hk2. rewrite !list_lookup_insert_ne by congruence. reflexivity.
    + rewrite !length_insert. reflexivity.
    + set (taken := {| handle_ := handle_ b; task_name_ := task_name_ b;
                       created_at_ := created_at_ b |}).
      assert (H1 := held_by_insert objs this a taken Ha).
      assert (Hb1 : <[this := taken]> objs !! other = Some b)
        by (rewrite list_lookup_insert_ne by exact Hne; exact Hb).
      assert (H2 := held_by_insert _ other b (emptied moved_from b) Hb1).
      change (held (emptied moved_from b)) with (@nil frame) in H2.
      change (held taken) with (held b) in H1.
      rewrite app_nil_r in H2.
      apply (Permutation_app_inv_r (held b)).
      rewrite <- H1, <- H2. solve_Permutation.
  - unfold move_assign. rewrite bool_decide_eq_true_2 by reflexivity. reflexivity.
Qed.

End Moves.

Lemma moves_witness :
  let objs := [returning_task; yielding_task] in
  exists objs',
    move_assign (fun _ => "") 0 1 objs = (objs', held returning_task) /\
    held_by objs' ++ held returning_task ≡ₚ held_by objs.
Proof.
  destruct (moves_hand_over_the_coroutine (fun _ => "") 0 1
              [returning_task; yielding_task] returning_task yielding_task
              eq_refl eq_refl ltac:(discriminate))
    as (_ & (objs' & Hm & _ & _ & _ & _ & Hp) & _).
  exists objs'. split; [exact Hm | exact Hp].
Defined.

End TaskFacts.

(** ** GentleScheduler: turns of the loop *)

Section SchedulerRuns.
Import Task Scheduler.
Implicit Types (t : GentleTask) (s : GentleScheduler) (i : nat) (w : worker).





End SchedulerRuns.


(** ** GentleChannel: what goes in comes out *)

Section ChannelLedger.
Import Channel.
Context {T : Type}.
Implicit Types (c : GentleChannel T) (s : shared T) (l : ledger T).

Lemma fire_balanced e s r s' l :
  fire e s = Some (r, s') -> balanced s l -> balanced s' (book e s r l).
Proof.
  unfold balanced. intros Hf Hb.
  destruct e as [v| | |i|]; simpl in Hf.
  - destruct (send_with_care_cases v (chan s))
      as [[Hc H]|[(Hc & Hs & H)|(Hc & Hs & H)]];
      rewrite H in Hf; simplify_eq; simpl; [exact Hb | | exact Hb].
    rewrite Hb, app_assoc. reflexivity.
  - destruct (receive_cases (chan s))
      as [(v & rest & Hq & H)|[(Hq & Hc & H)|(Hq & Hc & H)]];
      rewrite H in Hf; simplify_eq; simpl; [| exact Hb | exact Hb].
    rewrite Hb, Hq, <- app_assoc. reflexivity.
  - simplify_eq. simpl. exact Hb.
  - destruct (senders s !! i) as [v|] eqn:Hi; [|discriminate].
    destruct (send_after_wait_cases v (chan s))
      as [[Hc H]|[(Hc & Hs & H)|(Hc & Hs & H)]];
      rewrite H in Hf; simplify_eq; simpl; [exact Hb | | exact Hb].
    unfold book. simpl. rewrite Hi. simpl. rewrite Hb, app_assoc. reflexivity.
  - destruct (receivers s) as [|n]; [discriminate |].
    destruct (receive_cases (chan s))
      as [(v & rest & Hq & H)|[(Hq & Hc & H)|(Hq & Hc & H)]];
      rewrite H in Hf; simplify_eq; simpl; [| exact Hb | exact Hb].
    rewrite Hb, Hq, <- app_assoc. reflexivity.
Qed.

Lemma play_balanced (es : list (event T)) : forall s l s' l',
  play es s l = Some (s', l') -> balanced s l -> balanced s' l'.
Proof.
  induction es as [|e es IH]; intros s l s' l' Hplay Hb; simpl in Hplay.
  - simplify_eq. exact Hb.
  - destruct (fire e s) as [[r s1]|] eqn:Hf; simpl in Hplay; [|discriminate].
    apply (IH _ _ _ _ Hplay). apply (fire_balanced e s r s1 l Hf Hb).
Qed.

(** X11. Through a channel nothing is lost, duplicated or reordered, for
    any capacity and any interleaving of calls, sleeps and wake-ups, close
    included: the values of the sends that returned [true], in the order in
    which they were taken in, are the items the receives returned, in the
    order in which they returned, followed by the items still queued. *)
Theorem items_leave_in_the_order_they_entered
    (capacity : Z) (es : list (event T)) s l :
  play es (mkShared (construct capacity) [] 0) (mkLedger [] []) = Some (s, l) ->
  accepted l = delivered l ++ queue_ (chan s).
Proof.
  intros Hplay. apply (play_balanced es _ _ _ _ Hplay). reflexivity.
Qed.

(** X12. A channel built with capacity 0 never carries an item: in every
    state reached its queue is empty, no send returns [true], no receive
    returns an item, and while it is open every [send_with_care] sleeps. *)
Theorem channel_of_capacity_zero_carries_nothing s :
  rtc step (mkShared (@construct T 0) [] 0) s ->
  queue_ (chan s) = [] /\
  (forall e r s', fire e s = Some (r, s') ->
     r <> SendReturned true /\ forall item, r <> ReceiveReturned (Some item)) /\
  (forall v, closed_ (chan s) = false ->
     send_with_care v (chan s) = (None, chan s)).
Proof.
  intros Hreach.
  destruct (steps_bounded _ _ Hreach) as [Hb Hcap]; [cbv; discriminate |].
  simpl in Hcap. rewrite Hcap in Hb. unfold size in Hb.
  assert (Hq : queue_ (chan s) = [])
    by (destruct (queue_ (chan s)); [reflexivity | simpl in Hb; lia]).
  split; [exact Hq |]. split.
  - intros e r s' Hf.
    destruct (fire_effect e s r s' Hf) as [r' Hr| |v Hc Hs|v rest Hq'].
    + split; [exact Hr |]. intros item ->.
      destruct e as [v| | |i|]; simpl in Hf.
      * destruct (send_with_care v (chan s)) as [[ok|] c]; simplify_eq.
      * destruct (receive_cases (chan s))
          as [(v & rest & Hq' & _)|[(_ & _ & H)|(_ & _ & H)]];
          [congruence | rewrite H in Hf; simplify_eq..].
      * simplify_eq.
      * destruct (senders s !! i) as [v|]; [|discriminate].
        destruct (send_after_wait v (chan s)) as [[ok|] c]; simplify_eq.
      * destruct (receivers s) as [|n]; [discriminate |].
        destruct (receive_cases (chan s))
          as [(v & rest & Hq' & _)|[(_ & _ & H)|(_ & _ & H)]];
          [congruence | rewrite H in Hf; simplify_eq..].
    + split; [discriminate | discriminate].
    + unfold size in Hs. rewrite Hq, Hcap in Hs. simpl in Hs. lia.
    + congruence.
  - intros v Hopen.
    destruct (send_with_care_cases v (chan s))
      as [[Hc _]|[(_ & Hs & _)|(_ & _ & H)]]; [congruence | | exact H].
    unfold size in Hs. rewrite Hq, Hcap in Hs. simpl in Hs. lia.
Qed.

End ChannelLedger.

Section ChannelLedgerWitnesses.
Import Channel.

Lemma items_order_witness :
  let es := [CallSend 7; CallSend 8; CallReceive; WakeSender 0; CallClose; CallReceive] in
  let s := mkShared {| queue_ := []; closed_ := true; max_capacity_ := 1 |} [] 0 in
  play es (mkShared (construct 1) [] 0) (mkLedger [] []) = Some (s, mkLedger [7; 8] [7; 8]) /\
  [7; 8] = [7; 8] ++ queue_ (chan s).
Proof.
  intros es s.
  assert (Hplay : play es (mkShared (construct 1) [] 0) (mkLedger [] [])
                  = Some (s, mkLedger [7; 8] [7; 8])) by (vm_compute; reflexivity).
  split; [exact Hplay |].
  apply (items_leave_in_the_order_they_entered 1 es s (mkLedger [7; 8] [7; 8]) Hplay).
Defined.

Lemma capacity_zero_witness :
  let s := mkShared {| queue_ := []; closed_ := false; max_capacity_ := 0 |} [5] 0 in
  queue_ (chan s) = [] /\
  send_with_care 6 (chan s) = (None, chan s).
Proof.
  intros s.
  assert (Hreach : rtc step (mkShared (@construct Z 0) [] 0) s).
  { eapply rtc_l; [exists (CallSend 5); eexists; reflexivity |]. apply rtc_refl. }
  destruct (channel_of_capacity_zero_carries_nothing s Hreach) as (Hq & _ & Hs).
  split; [exact Hq | apply Hs; reflexivity].
Defined.

End ChannelLedgerWitnesses.

(** ** GentleMemoryPool: the free list as a stack, and the blocks' account *)

Section PoolStack.
Import MemoryPool.
Variable slab_base : nat -> Z.
Implicit Types (p : GentleMemoryPool) (c : client) (ptr : Z).

Lemma deallocates_appends (ptrs : list Z) : forall p,
  deallocates ptrs p = with_free (free_blocks_ p ++ ptrs) p.
Proof.
  unfold deallocates.
  induction ptrs as [|ptr ptrs IH]; intros p; simpl.
  - rewrite app_nil_r. symmetry. apply with_free_same.
  - rewrite IH. unfold deallocate_gently. simpl.
    rewrite <- app_assoc. reflexivity.
Qed.

Lemma allocate_gently_snoc p free ptr :
  free_blocks_ p = free ++ [ptr] ->
  allocate_gently slab_base p = Some (ptr, with_free free p).
Proof.
  intros Hf. unfold allocate_gently.
  rewrite bool_decide_eq_false_2 by (rewrite Hf; destruct free; discriminate).
  rewrite Hf, last_snoc, removelast_last. reflexivity.
Qed.

(** While the free list holds [n] addresses, [n] allocations take them from
    its end and leave the slabs alone. *)
Lemma allocates_from_free (n : nat) : forall p,
  (n <= length (free_blocks_ p))%nat ->
  allocates slab_base n p =
    Some (rev (drop (length (free_blocks_ p) - n) (free_blocks_ p)),
          with_free (take (length (free_blocks_ p) - n) (free_blocks_ p)) p).
Proof.
  induction n as [|n IH]; intros p Hn.
  - cbn [allocates]. rewrite Nat.sub_0_r, drop_all, firstn_all, with_free_same.
    reflexivity.
  - destruct (free_blocks_ p) as [|a l] eqn:Hfree using rev_ind;
      [simpl in Hn; lia |]. clear IHl.
    rewrite length_app in Hn |- *. simpl in Hn |- *.
    rewrite (allocate_gently_snoc p l a Hfree). simpl.
    rewrite (IH (with_free l p)) by (simpl; lia). simpl.
    replace (length l + 1 - S n)%nat with (length l - n)%nat by lia.
    rewrite drop_app_le, take_app_le by lia.
    rewrite rev_app_distr. reflexivity.
Qed.

(** X13. The free list is a stack, and a pool with free addresses serves
    from it alone: [n] allocations from a pool that holds at least [n] free
    addresses return the [n] last of them, the latest first, remove exactly
    those and add no slab; so after any addresses were deallocated, as many
    allocations return them in the reverse order and leave the pool as it
    was before. *)
Theorem allocations_pop_what_was_freed_last (n : nat) (ptrs : list Z) p :
  (n <= length (free_blocks_ p))%nat ->
  allocates slab_base n p =
    Some (rev (drop (length (free_blocks_ p) - n) (free_blocks_ p)),
          with_free (take (length (free_blocks_ p) - n) (free_blocks_ p)) p) /\
  allocates slab_base (length ptrs) (deallocates ptrs p) = Some (rev ptrs, p).
Proof.
  intros Hn. split; [apply allocates_from_free, Hn |].
  rewrite deallocates_appends, allocates_from_free by (simpl; rewrite length_app; lia).
  simpl. rewrite length_app.
  replace (length (free_blocks_ p) + length ptrs - length ptrs)%nat
    with (length (free_blocks_ p)) by lia.
  rewrite drop_app_length, take_app_length, with_free_twice, with_free_same.
  reflexivity.
Qed.

(** X14. An allocation followed by the deallocation of the address it
    returned leaves the pool as it was, apart from the slab the allocation
    added when it found the free list empty. *)
Theorem allocate_then_deallocate_restores p ptr p' :
  allocate_gently slab_base p = Some (ptr, p') ->
  deallocate_gently ptr p' =
    (if bool_decide (free_blocks_ p = []) then allocate_new_pool slab_base p else p).
Proof.
  unfold allocate_gently.
  set (p1 := if bool_decide (free_blocks_ p = [])
             then allocate_new_pool slab_base p else p).
  destruct (last (free_blocks_ p1)) as [x|] eqn:Hl; [|discriminate].
  intros H. simplify_eq. unfold deallocate_gently. simpl.
  rewrite with_free_twice, <- (last_removelast _ _ Hl). apply with_free_same.
Qed.

Lemma slab_blocks_last (base block_size blocks : Z) :
  0 < blocks ->
  slab_blocks base block_size blocks =
    slab_blocks base block_size (blocks - 1)
      ++ [block_address base block_size (blocks - 1)].
Proof.
  intros Hpos. unfold slab_blocks.
  replace (Z.to_nat blocks) with (S (Z.to_nat (blocks - 1))) by lia.
  rewrite seq_S, map_app. simpl. rewrite Z2Nat.id by lia. reflexivity.
Qed.

(** X15. What [allocate_gently] does on a pool whose free list is used up:
    with at least one block per slab it adds exactly one slab, returns the
    last block of that slab and leaves the others free, lowest address at
    the front; with no block per slab the new slab adds nothing and
    [allocate_gently] reads the back of an empty vector. *)
Theorem exhausted_pool_grows_by_one_slab p :
  free_blocks_ p = [] ->
  (0 < blocks_per_pool_ p ->
   allocate_gently slab_base p =
     Some (block_address (slab_base (length (pools_ p))) (block_size_ p)
             (blocks_per_pool_ p - 1),
           {| pools_ := pools_ p ++ [slab_base (length (pools_ p))];
              free_blocks_ :=
                slab_blocks (slab_base (length (pools_ p))) (block_size_ p)
                  (blocks_per_pool_ p - 1);
              block_size_ := block_size_ p;
              blocks_per_pool_ := blocks_per_pool_ p |})) /\
  (blocks_per_pool_ p <= 0 -> allocate_gently slab_base p = None).
Proof.
  intros Hempty. split.
  - intros Hpos. unfold allocate_gently.
    rewrite bool_decide_eq_true_2 by exact Hempty.
    unfold allocate_new_pool. simpl. rewrite Hempty. simpl.
    rewrite (slab_blocks_last _ _ _ Hpos), last_snoc, removelast_last.
    reflexivity.
  - intros Hnone. unfold allocate_gently.
    rewrite bool_decide_eq_true_2 by exact Hempty.
    unfold allocate_new_pool. simpl. rewrite Hempty. simpl.
    unfold slab_blocks. replace (Z.to_nat (blocks_per_pool_ p)) with 0%nat by lia.
    reflexivity.
Qed.

Lemma give_back_length ptr (held : list Z) :
  ptr ∈ held -> (length (give_back ptr held) + 1 = length held)%nat.
Proof.
  induction held as [|q held IH]; intros Hin; [inversion Hin |].
  simpl. case_bool_decide as Hq; [simpl; lia |].
  apply elem_of_cons in Hin as [Heq|Hin]; [congruence |].
  specialize (IH Hin). simpl. lia.
Qed.

Lemma perform_keeps_account (blocks : Z) op c c1 :
  permitted op c ->
  perform slab_base op c = Some c1 ->
  blocks_per_pool_ (pool c) = blocks ->
  (length (free_blocks_ (pool c)) + length (outstanding c)
   = Z.to_nat blocks * length (pools_ (pool c)))%nat ->
  blocks_per_pool_ (pool c1) = blocks /\
  (length (free_blocks_ (pool c1)) + length (outstanding c1)
   = Z.to_nat blocks * length (pools_ (pool c1)))%nat.
Proof.
  intros Hperm Hop Hbpp Hacc. destruct op as [|ptr]; simpl in Hop, Hperm.
  - destruct (allocate_gently slab_base (pool c)) as [[ptr p']|] eqn:Ha;
      [|discriminate].
    simpl in Hop. injection Hop as <-. simpl.
    destruct (allocate_gently_pops _ _ _ _ Ha) as (p1 & Hp1 & Hfree & Hpools & _ & Hbpp').
    split; [congruence |].
    assert (Hlen : length (free_blocks_ p1) = S (length (free_blocks_ p')))
      by (rewrite Hfree, length_app; simpl; lia).
    rewrite Hpools. revert Hp1 Hlen. case_bool_decide as Hempty; intros -> Hlen.
    + simpl in Hlen |- *. rewrite Hempty in Hacc, Hlen. simpl in Hacc, Hlen.
      unfold slab_blocks in Hlen. rewrite length_map, length_seq, Hbpp in Hlen.
      rewrite length_app. simpl. lia.
    + lia.
  - injection Hop as <-. simpl. split; [exact Hbpp |].
    rewrite length_app. simpl.
    pose proof (give_back_length ptr (outstanding c) Hperm). lia.
Qed.

(** X16. No block is lost or made up: after any calls in which
    [deallocate_gently] was only given addresses the client held, the free
    addresses and the held ones together are as many as the pool's slabs
    have blocks, whatever the block size and the heap. *)
Theorem every_block_is_free_or_held (block_size blocks : Z) (ops : list pool_op) c :
  serves slab_base (fresh_client slab_base block_size blocks) ops c ->
  (length (free_blocks_ (pool c)) + length (outstanding c)
   = Z.to_nat blocks * length (pools_ (pool c)))%nat.
Proof.
  intros Hrun.
  assert (Hgen : forall c0 ops0 c1,
    serves slab_base c0 ops0 c1 ->
    blocks_per_pool_ (pool c0) = blocks ->
    (length (free_blocks_ (pool c0)) + length (outstanding c0)
     = Z.to_nat blocks * length (pools_ (pool c0)))%nat ->
    (length (free_blocks_ (pool c1)) + length (outstanding c1)
     = Z.to_nat blocks * length (pools_ (pool c1)))%nat).
  { induction 1 as [c0|c0 op c1 ops0 c2 Hperm Hop _ IH]; intros Hbpp Hacc;
      [exact Hacc |].
    destruct (perform_keeps_account blocks op c0 c1 Hperm Hop Hbpp Hacc) as [Hb1 Ha1].
    apply IH; assumption. }
  apply (Hgen _ _ _ Hrun); [reflexivity |].
  simpl. unfold slab_blocks. rewrite length_map, length_seq. lia.
Qed.

End PoolStack.

Section PoolStackWitnesses.
Import MemoryPool.

Lemma stack_witness :
  let p := construct bump_heap 16 4 in
  allocates bump_heap 2 p = Some ([4144; 4128], with_free [4096; 4112] p) /\
  allocates bump_heap 2 (deallocates [7; 9] p) = Some ([9; 7], p).
Proof.
  intros p.
  destruct (allocations_pop_what_was_freed_last bump_heap 2 [7; 9] p
              ltac:(vm_compute; lia)) as [H1 H2].
  split; [exact H1 | exact H2].
Defined.

Lemma restore_witness :
  let p := construct bump_heap 16 4 in
  deallocate_gently 4144 (with_free [4096; 4112; 4128] p) = p.
Proof.
  intros p.
  apply (allocate_then_deallocate_restores bump_heap p 4144
           (with_free [4096; 4112; 4128] p)).
  reflexivity.
Defined.

Lemma exhausted_witness :
  let p := with_free [] (construct bump_heap 16 4) in
  allocate_gently bump_heap p =
    Some (4208, {| pools_ := [4096; 4160];
                   free_blocks_ := [4160; 4176; 4192];
                   block_size_ := 16;
                   blocks_per_pool_ := 4 |}).
Proof.
  intros p.
  destruct (exhausted_pool_grows_by_one_slab bump_heap p eq_refl) as [Hgrow _].
  apply Hgrow. reflexivity.
Defined.

Lemma account_witness :
  let c := {| pool := {| pools_ := [4096];
                         free_blocks_ := [4096; 4112; 4144];
                         block_size_ := 16;
                         blocks_per_pool_ := 4 |};
              outstanding := [4128] |} in
  (length (free_blocks_ (pool c)) + length (outstanding c) = 4 * 1)%nat.
Proof.
  intros c.
  apply (every_block_is_free_or_held bump_heap 16 4
           [Allocate; Allocate; Deallocate 4144] c).
  eapply serves_cons; [exact I | reflexivity |].
  eapply serves_cons; [exact I | reflexivity |].
  eapply serves_cons; [| reflexivity | apply serves_nil].
  simpl. apply elem_of_cons. right. apply elem_of_cons. left. reflexivity.
Defined.

End PoolStackWitnesses.

(** ** GentleMutex *)

Section MutexFacts.
Import Mutex.
Context {Env R : Type}.
Implicit Types (m : GentleMutex) (env : Env) (func : job (Env := Env) (R := R)).

Lemma with_gentle_lock_passes_through func holder_name m env :
  with_gentle_lock func holder_name m env =
    ((func holder_name env).1, (func holder_name env).2,
     {| current_holder_ := "" |}).
Proof.
  unfold with_gentle_lock, current_holder. simpl.
  destruct (func holder_name env) as [[e|result] env']; reflexivity.
Qed.

(** X17. The holder label never outlives a call of [with_gentle_lock]:
    after any calls, whether their callbacks returned or threw, the label
    is empty again; each callback ran with its own holder name as the
    label, and what it returned or threw reaches the caller unchanged. *)
Theorem holder_is_cleared_on_every_way_out
    (calls : list (job (Env := Env) (R := R) * string)) m env :
  calls <> [] ->
  current_holder (with_gentle_locks calls m env).2 = "" /\
  length (with_gentle_locks calls m env).1.1 = length calls /\
  forall func holder_name rest, calls = (func, holder_name) :: rest ->
    head (with_gentle_locks calls m env).1.1 = Some (func holder_name env).1.
Proof.
  intros Hne.
  assert (Hgen : forall (cs : list (job (Env := Env) (R := R) * string)) m0 env0,
    length (with_gentle_locks cs m0 env0).1.1 = length cs /\
    (cs <> [] -> current_holder (with_gentle_locks cs m0 env0).2 = "")).
  { induction cs as [|[f h] cs IH]; intros m0 env0; simpl.
    - split; [reflexivity | congruence].
    - rewrite with_gentle_lock_passes_through.
      destruct (IH {| current_holder_ := "" |} (f h env0).2) as [Hlen Hclr].
      destruct (with_gentle_locks cs _ _) as [[rs env2] m2] eqn:E. simpl in *.
      split; [congruence |]. intros _.
      destruct cs as [|c cs]; [simpl in E; simplify_eq; reflexivity |].
      apply Hclr. discriminate. }
  destruct (Hgen calls m env) as [Hlen Hclr].
  split; [apply Hclr, Hne |]. split; [exact Hlen |].
  intros func h rest ->. simpl. rewrite with_gentle_lock_passes_through.
  destruct (with_gentle_locks rest _ _) as [[rs env2] m2]. reflexivity.
Qed.

End MutexFacts.

Section MutexWitness.
Import Mutex.

Lemma holder_cleared_witness :
  let throwing : job := fun _ (n : Z) => (inl (Task.StdException "no"), n) in
  let counting : job := fun _ (n : Z) => (inr n, n + 1) in
  current_holder
    (with_gentle_locks [(counting, "a"); (throwing, "b")] (mkMutex "") 0).2 = "".
Proof.
  intros throwing counting.
  apply (holder_is_cleared_on_every_way_out
           [(counting, "a"); (throwing, "b")] (mkMutex "") 0).
  discriminate.
Defined.

End MutexWitness.
